(** * SmartBuffer: size arithmetic, storage selection and value-semantics lifecycle

    A shallow embedding of [include/smart_buffer.hpp].  The class template
    [SmartBuffer<Size, StaticThreshold>] becomes a family of definitions
    indexed by the width [w] of [std::size_t] and by the two template
    arguments.  Memory is explicit: live objects are keyed by their address
    ([this]), heap arrays by their base address. *)

From Stdlib Require Import ZArith Lia Strings.Byte.
From stdpp Require Import base numbers option list gmap.

Local Open Scope Z_scope.

(** ** Arithmetic of [std::size_t] *)

Module SizeT.

(** [std::size_t] is an unsigned integer of [w] bits: values are the
    integers of [0, 2^w), every operation wraps. *)
Definition modulus (w : Z) : Z := 2 ^ w.

Definition SIZE_MAX (w : Z) : Z := modulus w - 1.

Definition in_range (w x : Z) : Prop := 0 <= x < modulus w.

(** [std::size_t(x)] *)
Definition cast (w x : Z) : Z := x mod modulus w.

Definition add (w a b : Z) : Z := (a + b) mod modulus w.
Definition sub (w a b : Z) : Z := (a - b) mod modulus w.
Definition mul (w a b : Z) : Z := (a * b) mod modulus w.
Definition div (a b : Z) : Z := a / b.
Definition rem (a b : Z) : Z := a mod b.

(** [~x] *)
Definition not (w a : Z) : Z := Z.lnot a mod modulus w.

(** [x & y] *)
Definition and (a b : Z) : Z := Z.land a b.

End SizeT.

(** ** The compile-time part of the class *)

(** [static constexpr std::size_t round_up_to_8(std::size_t size)]:
    [(size + 7) & ~std::size_t(7)]. *)
Definition round_up_to_8 (w size : Z) : Z :=
  SizeT.and (SizeT.add w size 7) (SizeT.not w (SizeT.cast w 7)).

(** [ACTUAL_SIZE = round_up_to_8(Size)] *)
Definition ACTUAL_SIZE (w Size : Z) : Z := round_up_to_8 w Size.

(** [STATIC_THRESHOLD = StaticThreshold] *)
Definition STATIC_THRESHOLD (StaticThreshold : Z) : Z := StaticThreshold.

(** [use_static = ACTUAL_SIZE <= STATIC_THRESHOLD] *)
Definition use_static (w Size StaticThreshold : Z) : bool :=
  ACTUAL_SIZE w Size <=? STATIC_THRESHOLD StaticThreshold.

(** The default of the second template argument. *)
Definition default_threshold : Z := 32.

(** The formula of the specification for the allocated size,
    [((s + 7) / 8) * 8], evaluated in [std::size_t]. *)
Definition spec_actual_size (w s : Z) : Z :=
  SizeT.mul w (SizeT.div (SizeT.add w s 7) 8) 8.

(** ** Memory *)

(** Addresses of [SmartBuffer] objects and base addresses of [new[]]
    arrays are positive numbers. *)
Abbreviation address := positive.

(** The member [buffer_]: a [std::array<std::uint8_t, ACTUAL_SIZE>] held
    in the object itself, or a [std::unique_ptr<std::uint8_t[]>], which is
    null or owns the array at the given base address. *)
Inductive storage : Type :=
| StaticBuffer (elems : list byte)
| DynamicBuffer (p : option address).

Record memory : Type := Memory {
  objects : gmap positive storage;        (* live objects, by address *)
  heap : gmap positive (list byte);       (* live arrays of [new[]] *)
  capacity : nat;                         (* bytes [new[]] can still hand out *)
  allocations : nat;                      (* calls of [new[]] so far *)
  releases : nat;                         (* calls of [delete[]] so far *)
}.

Definition with_objects (o : gmap positive storage) (m : memory) : memory :=
  Memory o (heap m) (capacity m) (allocations m) (releases m).

Definition with_heap (h : gmap positive (list byte)) (m : memory) : memory :=
  Memory (objects m) h (capacity m) (allocations m) (releases m).

(** A [std::uint8_t*]. *)
Inductive pointer : Type :=
| NullPtr
| ArrayData (this : address)     (* first element of the array member *)
| HeapData (l : address).        (* first element of a heap array *)

(** A call returns normally with a new memory, throws [std::bad_alloc], or
    has undefined behaviour. *)
Inductive outcome (A : Type) : Type :=
| Ok (a : A) (m : memory)
| BadAlloc
| Undefined.
Arguments Ok {A} a m.
Arguments BadAlloc {A}.
Arguments Undefined {A}.

Definition M (A : Type) : Type := memory -> outcome A.

Definition ret {A} (a : A) : M A := fun m => Ok a m.

Definition bind {A B} (c : M A) (k : A -> M B) : M B := fun m =>
  match c m with
  | Ok a m' => k a m'
  | BadAlloc => BadAlloc
  | Undefined => Undefined
  end.

Notation "'let*' x ':=' c 'in' k" := (bind c (fun x => k))
  (at level 10, x pattern, c at level 100, k at level 200, only parsing).

(** The bytes a pointer is valid for. *)
Definition region (p : pointer) (m : memory) : option (list byte) :=
  match p with
  | NullPtr => None
  | ArrayData this =>
      match objects m !! this with
      | Some (StaticBuffer elems) => Some elems
      | _ => None
      end
  | HeapData l => heap m !! l
  end.

Definition set_region (p : pointer) (bs : list byte) (m : memory) : memory :=
  match p with
  | NullPtr => m
  | ArrayData this => with_objects (<[this := StaticBuffer bs]> (objects m)) m
  | HeapData l => with_heap (<[l := bs]> (heap m)) m
  end.

(** [p[i]] read and [p[i] = v]: outside the region the behaviour is
    undefined. *)
Definition load (p : pointer) (i : nat) : M byte := fun m =>
  match region p m with
  | Some bs => match bs !! i with Some b => Ok b m | None => Undefined end
  | None => Undefined
  end.

Definition store (p : pointer) (i : nat) (v : byte) : M unit := fun m =>
  match region p m with
  | Some bs =>
      if decide (i < length bs)%nat
      then Ok tt (set_region p (<[i := v]> bs) m)
      else Undefined
  | None => Undefined
  end.

(** ** The library functions the class calls *)

(** [std::fill_n(first, n, value)]: [n] assignments through [first]. *)
Fixpoint fill_n_from (first : pointer) (i n : nat) (value : byte) : M unit :=
  match n with
  | O => ret tt
  | S n' => let* _ := store first i value in fill_n_from first (S i) n' value
  end.

Definition fill_n (first : pointer) (n : nat) (value : byte) : M unit :=
  fill_n_from first 0 n value.

(** [std::copy_n(first, n, result)] *)
Fixpoint copy_n_from (first : pointer) (i n : nat) (result : pointer) : M unit :=
  match n with
  | O => ret tt
  | S n' =>
      let* b := load first i in
      let* _ := store result i b in
      copy_n_from first (S i) n' result
  end.

Definition copy_n (first : pointer) (n : nat) (result : pointer) : M unit :=
  copy_n_from first 0 n result.

(** [new std::uint8_t[n]()], as [std::make_unique<std::uint8_t[]>(n)] calls
    it: a fresh array, value-initialised. *)
Definition make_unique (n : nat) : M address := fun m =>
  if decide (n <= capacity m)%nat then
    let l := fresh (dom (heap m)) in
    Ok l (Memory (objects m) (<[l := replicate n x00]> (heap m))
                 (capacity m - n) (S (allocations m)) (releases m))
  else BadAlloc.

(** [delete[] l] *)
Definition delete_array (l : address) : M unit := fun m =>
  match heap m !! l with
  | Some bs =>
      Ok tt (Memory (objects m) (delete l (heap m))
                    (capacity m + length bs) (allocations m) (S (releases m)))
  | None => Undefined
  end.

(** Reading and writing the member [buffer_] of a live object. *)
Definition get_buffer (this : address) : M storage := fun m =>
  match objects m !! this with
  | Some s => Ok s m
  | None => Undefined
  end.

Definition set_buffer (this : address) (s : storage) : M unit := fun m =>
  match objects m !! this with
  | Some _ => Ok tt (with_objects (<[this := s]> (objects m)) m)
  | None => Undefined
  end.

(** [unique_ptr::get], [operator bool], [release], [reset], the move
    assignment [reset(u.release())] and the destructor. *)
Definition unique_ptr_get (this : address) : M pointer :=
  let* s := get_buffer this in
  match s with
  | DynamicBuffer (Some l) => ret (HeapData l)
  | DynamicBuffer None => ret NullPtr
  | StaticBuffer _ => fun _ => Undefined
  end.

Definition unique_ptr_bool (this : address) : M bool :=
  let* s := get_buffer this in
  match s with
  | DynamicBuffer p => ret (bool_decide (is_Some p))
  | StaticBuffer _ => fun _ => Undefined
  end.

Definition unique_ptr_release (this : address) : M (option address) :=
  let* s := get_buffer this in
  match s with
  | DynamicBuffer p => let* _ := set_buffer this (DynamicBuffer None) in ret p
  | StaticBuffer _ => fun _ => Undefined
  end.

Definition unique_ptr_reset (this : address) (p : option address) : M unit :=
  let* s := get_buffer this in
  match s with
  | DynamicBuffer old =>
      let* _ := set_buffer this (DynamicBuffer p) in
      match old with
      | Some l => delete_array l
      | None => ret tt
      end
  | StaticBuffer _ => fun _ => Undefined
  end.

Definition unique_ptr_move_assign (this other : address) : M unit :=
  let* p := unique_ptr_release other in
  unique_ptr_reset this p.

Definition unique_ptr_destroy (this : address) : M unit :=
  let* s := get_buffer this in
  match s with
  | DynamicBuffer (Some l) => delete_array l
  | DynamicBuffer None => ret tt
  | StaticBuffer _ => fun _ => Undefined
  end.

(** [std::array::data], [fill] and the implicit assignments, which assign
    every element; a [std::uint8_t] is moved by copying it. *)
Definition array_data (this : address) : M pointer :=
  let* s := get_buffer this in
  match s with
  | StaticBuffer _ => ret (ArrayData this)
  | DynamicBuffer _ => fun _ => Undefined
  end.

Definition array_fill (this : address) (n : nat) (value : byte) : M unit :=
  let* p := array_data this in fill_n p n value.

Definition array_assign (this other : address) : M unit :=
  let* src := get_buffer other in
  let* dst := get_buffer this in
  match src, dst with
  | StaticBuffer elems, StaticBuffer _ => set_buffer this (StaticBuffer elems)
  | _, _ => fun _ => Undefined
  end.

Definition array_move_assign (this other : address) : M unit :=
  array_assign this other.

(** The start of an object's lifetime at [this]: [buffer_] is
    default-initialised, an array of indeterminate bytes ([junk], what the
    storage held before) or a null [unique_ptr]. *)
Definition begin_lifetime (static : bool) (n : nat) (this : address)
    (junk : nat -> byte) : M unit := fun m =>
  match objects m !! this with
  | Some _ => Undefined
  | None =>
      let s := if static then StaticBuffer (map junk (seq 0 n))
               else DynamicBuffer None in
      Ok tt (with_objects (<[this := s]> (objects m)) m)
  end.

Definition end_lifetime (this : address) : M unit := fun m =>
  match objects m !! this with
  | Some _ => Ok tt (with_objects (delete this (objects m)) m)
  | None => Undefined
  end.

(** ** The class template *)

Module SmartBuffer.
Section class.
(** Width of [std::size_t], and the template arguments. *)
Variables (w Size StaticThreshold : Z).

Definition static : bool := use_static w Size StaticThreshold.

(** [ACTUAL_SIZE] and [Size] as element counts. *)
Definition actual_len : nat := Z.to_nat (ACTUAL_SIZE w Size).
Definition size_len : nat := Z.to_nat Size.

(** [SmartBuffer()] *)
Definition ctor_default (this : address) (junk : nat -> byte) : M unit :=
  let* _ := begin_lifetime static actual_len this junk in
  if static then
    array_fill this actual_len x00
  else
    let* l := make_unique actual_len in
    let* _ := unique_ptr_reset this (Some l) in
    let* p := unique_ptr_get this in
    fill_n p actual_len x00.

(** [SmartBuffer(const SmartBuffer& other)] *)
Definition ctor_copy (this other : address) (junk : nat -> byte) : M unit :=
  let* _ := begin_lifetime static actual_len this junk in
  if static then
    array_assign this other
  else
    let* l := make_unique actual_len in
    let* _ := unique_ptr_reset this (Some l) in
    let* src := unique_ptr_get other in
    let* dst := unique_ptr_get this in
    copy_n src actual_len dst.

(** [SmartBuffer(SmartBuffer&& other)] *)
Definition ctor_move (this other : address) (junk : nat -> byte) : M unit :=
  let* _ := begin_lifetime static actual_len this junk in
  if static then
    array_move_assign this other
  else
    unique_ptr_move_assign this other.

(** [operator=(const SmartBuffer& other)] *)
Definition copy_assign (this other : address) : M unit :=
  if decide (this <> other) then
    if static then
      array_assign this other
    else
      let* b := unique_ptr_bool this in
      let* _ :=
        (if negb b then
           let* l := make_unique actual_len in
           unique_ptr_reset this (Some l)
         else ret tt) in
      let* src := unique_ptr_get other in
      let* dst := unique_ptr_get this in
      copy_n src actual_len dst
  else ret tt.

(** [operator=(SmartBuffer&& other)] *)
Definition move_assign (this other : address) : M unit :=
  if decide (this <> other) then
    if static then array_move_assign this other
    else unique_ptr_move_assign this other
  else ret tt.

(** [~SmartBuffer()]: the member is destroyed, the lifetime ends. *)
Definition dtor (this : address) : M unit :=
  let* _ := (if static then ret tt else unique_ptr_destroy this) in
  end_lifetime this.

(** [operator std::uint8_t*()] and [data()] *)
Definition data (this : address) : M pointer :=
  if static then array_data this else unique_ptr_get this.

Definition size : Z := Size.
Definition actual_size : Z := ACTUAL_SIZE w Size.
Definition is_static : bool := static.
Definition static_threshold : Z := STATIC_THRESHOLD StaticThreshold.

(** [operator[](index)], read and written through the reference. *)
Definition subscript (this : address) (index : nat) : M byte :=
  let* p := data this in load p index.

Definition subscript_assign (this : address) (index : nat) (v : byte)
  : M unit :=
  let* p := data this in store p index v.

Definition fill (this : address) (value : byte) : M unit :=
  let* p := data this in fill_n p size_len value.

Definition clear (this : address) : M unit := fill this x00.

Definition fill_all (this : address) (value : byte) : M unit :=
  let* p := data this in fill_n p actual_len value.

Definition clear_all (this : address) : M unit := fill_all this x00.

(** *** Observations and the representation invariant *)

(** The bytes of the backing region of a handle; none for a dead object
    or a moved-from heap handle. *)
Definition contents (this : address) (m : memory) : option (list byte) :=
  match objects m !! this with
  | Some (StaticBuffer elems) => Some elems
  | Some (DynamicBuffer (Some l)) => heap m !! l
  | _ => None
  end.

(** The address [data()] yields for a handle. *)
Definition place (this : address) (m : memory) : pointer :=
  match objects m !! this with
  | Some (StaticBuffer _) => ArrayData this
  | Some (DynamicBuffer (Some l)) => HeapData l
  | _ => NullPtr
  end.

Definition owns (m : memory) (this l : address) : Prop :=
  objects m !! this = Some (DynamicBuffer (Some l)).

(** Every object has the member type the instantiation selects, of
    [ACTUAL_SIZE] bytes; a heap array has one owner, and every heap array
    has an owner. *)
Record wf (m : memory) : Prop := Wf {
  wf_static : forall this elems,
    objects m !! this = Some (StaticBuffer elems) ->
    static = true /\ length elems = actual_len;
  wf_dynamic : forall this p,
    objects m !! this = Some (DynamicBuffer p) -> static = false;
  wf_region : forall this l,
    owns m this l ->
    exists bs, heap m !! l = Some bs /\ length bs = actual_len;
  wf_unique : forall a b l, owns m a l -> owns m b l -> a = b;
  wf_no_leak : forall l,
    is_Some (heap m !! l) -> exists this, owns m this l;
}.

(** The writes a caller can make through the access surface. *)
Inductive mutation : Type :=
| Write (index : nat) (v : byte)
| Fill (value : byte)
| Clear
| FillAll (value : byte)
| ClearAll.

Definition mutate (this : address) (mu : mutation) : M unit :=
  match mu with
  | Write index v => subscript_assign this index v
  | Fill value => fill this value
  | Clear => clear this
  | FillAll value => fill_all this value
  | ClearAll => clear_all this
  end.

(** A sequence of writes, each through the handle it names. *)
Fixpoint mutate_all (ops : list (address * mutation)) : M unit :=
  match ops with
  | [] => ret tt
  | (this, mu) :: ops' => let* _ := mutate this mu in mutate_all ops'
  end.

(** What a write makes of the bytes of its own handle. *)
Definition effect (mu : mutation) (bs : list byte) : list byte :=
  match mu with
  | Write index v => <[index := v]> bs
  | Fill value => replicate size_len value ++ drop size_len bs
  | Clear => replicate size_len x00 ++ drop size_len bs
  | FillAll value => replicate actual_len value ++ drop actual_len bs
  | ClearAll => replicate actual_len x00 ++ drop actual_len bs
  end.

Definition effects (mus : list mutation) (bs : list byte) : list byte :=
  foldl (fun acc mu => effect mu acc) bs mus.

(** The writes of a sequence that go through [this]. *)
Definition through (this : address) (ops : list (address * mutation))
  : list mutation :=
  map snd (filter (fun op => fst op = this) ops).

(** A write stays inside the region. *)
Definition in_bounds (mu : mutation) : Prop :=
  match mu with
  | Write index _ => (index < actual_len)%nat
  | _ => True
  end.

End class.
End SmartBuffer.

Definition empty_memory (cap : nat) : memory := Memory ∅ ∅ cap 0 0.

(** Two [SmartBuffer<33>] (heap strategy, 40 bytes): the one at address 1
    owns an array of sevens, the one at address 2 is moved-from. *)
Definition heap_sample : memory :=
  Memory (<[1%positive := DynamicBuffer (Some 5%positive)]>
            (<[2%positive := DynamicBuffer None]> ∅))
         (<[5%positive := replicate 40 x07]> ∅) 64 1 0.

(** Two [SmartBuffer<13>] (inline strategy, 16 bytes) at addresses 1 and 2. *)
Definition static_sample : memory :=
  Memory (<[1%positive := StaticBuffer (replicate 16 x07)]>
            (<[2%positive := StaticBuffer (replicate 16 x00)]> ∅))
         ∅ 0 0 0.

(** A [SmartBuffer<SIZE_MAX>] of a 64-bit [std::size_t] at address 1, as
    its default constructor leaves it: [ACTUAL_SIZE] wraps to 0, the member
    is a [std::array<std::uint8_t, 0>]. *)
Definition size_max_sample : memory :=
  Memory (<[1%positive := StaticBuffer []]> ∅) ∅ 0 0 0.

(** ** The first version of the header *)

(** [smart_buffer.hpp] at the root of the repository selects the strategy
    from the requested size, without rounding:
    [STATIC_THRESHOLD = 32], [use_static = Size <= STATIC_THRESHOLD]. *)
Module Legacy.

Definition STATIC_THRESHOLD : Z := 32.

Definition use_static (Size : Z) : bool := Size <=? STATIC_THRESHOLD.

End Legacy.

(** ** Programs over handles *)

(** The calls a user of the class can make on the handles of one
    instantiation. *)
Module Program.
Section program.
Variables (w Size StaticThreshold : Z).

Inductive operation : Type :=
| Construct (this : address) (junk : nat -> byte)
| CopyConstruct (this other : address) (junk : nat -> byte)
| MoveConstruct (this other : address) (junk : nat -> byte)
| CopyAssign (this other : address)
| MoveAssign (this other : address)
| Destroy (this : address)
| Mutate (this : address) (mu : SmartBuffer.mutation).

Definition perform (op : operation) : M unit :=
  match op with
  | Construct this junk =>
      SmartBuffer.ctor_default w Size StaticThreshold this junk
  | CopyConstruct this other junk =>
      SmartBuffer.ctor_copy w Size StaticThreshold this other junk
  | MoveConstruct this other junk =>
      SmartBuffer.ctor_move w Size StaticThreshold this other junk
  | CopyAssign this other =>
      SmartBuffer.copy_assign w Size StaticThreshold this other
  | MoveAssign this other =>
      SmartBuffer.move_assign w Size StaticThreshold this other
  | Destroy this => SmartBuffer.dtor w Size StaticThreshold this
  | Mutate this mu => SmartBuffer.mutate w Size StaticThreshold this mu
  end.

Fixpoint perform_all (ops : list operation) : M unit :=
  match ops with
  | [] => ret tt
  | op :: ops' => let* _ := perform op in perform_all ops'
  end.

(** An object is not constructed from itself. *)
Definition distinct_operands (op : operation) : Prop :=
  match op with
  | CopyConstruct this other _ | MoveConstruct this other _ => this <> other
  | _ => True
  end.

End program.
End Program.

(** A program on two [SmartBuffer<33>]: construct, copy, fill the copy,
    move it back, destroy both. *)
Definition sample_program : list Program.operation :=
  [Program.Construct 1%positive (fun _ => xff);
   Program.CopyConstruct 2%positive 1%positive (fun _ => xff);
   Program.Mutate 2%positive (SmartBuffer.Fill xff);
   Program.MoveAssign 1%positive 2%positive;
   Program.Destroy 1%positive;
   Program.Destroy 2%positive].

(** Every array handed out by [new[]] and not yet given to [delete[]] is
    live, and no other. *)
Definition balanced (m : memory) : Prop :=
  allocations m = (releases m + size (heap m))%nat.

(** A computation keeps a property of the memory whenever it returns. *)
Definition preserves {A} (P : memory -> Prop) (c : M A) : Prop :=
  forall m a m', P m -> c m = Ok a m' -> P m'.

(** A computation does not throw [std::bad_alloc]. *)
Definition never_throws {A} (c : M A) : Prop :=
  forall m, c m <> BadAlloc.

(** ** Facts on the arithmetic *)

Section size_facts.
Variable w : Z.
(** [SIZE_MAX] is at least 65535 on every conforming implementation. *)
Hypothesis Hw : 16 <= w.

Lemma modulus_ge : 65536 <= SizeT.modulus w.
Proof.
  unfold SizeT.modulus. change 65536 with (2 ^ 16).
  apply Z.pow_le_mono_r; lia.
Qed.

Lemma mask_7 : SizeT.not w (SizeT.cast w 7) = Z.land (Z.lnot 7) (Z.ones w).
Proof.
  unfold SizeT.not, SizeT.cast, SizeT.modulus.
  pose proof modulus_ge as Hm. unfold SizeT.modulus in Hm.
  rewrite (Z.mod_small 7) by lia.
  rewrite Z.land_ones by lia. reflexivity.
Qed.

(** The masking clears the three low bits. *)
Lemma land_mask_7 x :
  0 <= x < SizeT.modulus w ->
  Z.land x (SizeT.not w (SizeT.cast w 7)) = 8 * (x / 8).
Proof.
  intros Hx. rewrite mask_7.
  rewrite (Z.land_comm (Z.lnot 7)), Z.land_assoc.
  rewrite (Z.land_ones x) by lia.
  unfold SizeT.modulus in Hx. rewrite (Z.mod_small x) by lia.
  rewrite <- Z.ldiff_land. change 7 with (Z.ones 3).
  rewrite Z.ldiff_ones_r by lia.
  rewrite Z.shiftr_div_pow2, Z.shiftl_mul_pow2 by lia.
  change (2 ^ 3) with 8. lia.
Qed.

Lemma round_up_to_8_div size :
  round_up_to_8 w size = 8 * (((size + 7) mod SizeT.modulus w) / 8).
Proof.
  unfold round_up_to_8, SizeT.and, SizeT.add.
  apply land_mask_7. apply Z.mod_pos_bound.
  pose proof modulus_ge. lia.
Qed.

Lemma round_up_to_8_range size :
  0 <= round_up_to_8 w size < SizeT.modulus w.
Proof.
  rewrite round_up_to_8_div. pose proof modulus_ge as Hm.
  pose proof (Z.mod_pos_bound (size + 7) (SizeT.modulus w) ltac:(lia)) as Hb.
  pose proof (Z.mul_div_le ((size + 7) mod SizeT.modulus w) 8 ltac:(lia)).
  split; [|lia]. apply Z.mul_nonneg_nonneg; [lia|]. apply Z.div_pos; lia.
Qed.

(** Without wrap-around the result is the least multiple of 8 above. *)
Lemma round_up_to_8_no_wrap size :
  0 <= size <= SizeT.SIZE_MAX w - 7 ->
  round_up_to_8 w size = 8 * ((size + 7) / 8).
Proof.
  intros Hs. rewrite round_up_to_8_div. unfold SizeT.SIZE_MAX in Hs.
  rewrite Z.mod_small by lia. reflexivity.
Qed.

(** The seven largest sizes wrap to zero. *)
Lemma round_up_to_8_wrap size :
  SizeT.SIZE_MAX w - 7 < size <= SizeT.SIZE_MAX w ->
  round_up_to_8 w size = 0.
Proof.
  intros Hs. rewrite round_up_to_8_div. unfold SizeT.SIZE_MAX in Hs.
  pose proof modulus_ge as Hm.
  replace ((size + 7) mod SizeT.modulus w) with (size + 7 - SizeT.modulus w).
  - rewrite Z.div_small; lia.
  - apply Z.mod_unique with 1; lia.
Qed.

Lemma round_up_to_8_bounds size :
  0 <= size <= SizeT.SIZE_MAX w - 7 ->
  size <= round_up_to_8 w size < size + 8.
Proof.
  intros Hs. rewrite round_up_to_8_no_wrap by assumption.
  pose proof (Z.div_mod (size + 7) 8 ltac:(lia)).
  pose proof (Z.mod_pos_bound (size + 7) 8 ltac:(lia)). lia.
Qed.

End size_facts.

(** ** Size and strategy: the claims *)

(** C1 fails as stated: at [Size = SIZE_MAX] of a 64-bit [std::size_t] the
    sum [size + 7] wraps to 6, the result is 0, and 0 is not greater than or
    equal to [SIZE_MAX]. *)
Lemma round_up_to_8_below_size_max :
  ~ (let n := SizeT.SIZE_MAX 64 in
     let r := round_up_to_8 64 n in
     n <= r /\ r mod 8 = 0 /\ SizeT.sub 64 r n < 8).
Proof.
  assert (E : round_up_to_8 64 (SizeT.SIZE_MAX 64) = 0) by reflexivity.
  cbv zeta. rewrite E. intros [H _]. revert H. vm_compute. congruence.
Qed.

(** C1, amended: for every size [n] the result of [round_up_to_8] is a
    multiple of 8 and the difference to [n], taken modulo [2^w], is below 8;
    the result is greater than or equal to [n] exactly when
    [n <= SIZE_MAX - 7], that is when [n + 7] does not wrap. *)
Theorem round_up_to_8_contract (w n : Z) :
  16 <= w ->
  SizeT.in_range w n ->
  round_up_to_8 w n mod 8 = 0 /\
  SizeT.sub w (round_up_to_8 w n) n < 8 /\
  (n <= round_up_to_8 w n <-> n <= SizeT.SIZE_MAX w - 7).
Proof.
  intros Hw [Hn0 Hn]. pose proof (modulus_ge w Hw) as Hm.
  split; [|split].
  - rewrite (round_up_to_8_div w Hw), Z.mul_comm. apply Z.mod_mul. lia.
  - unfold SizeT.sub.
    destruct (Z_le_gt_dec n (SizeT.SIZE_MAX w - 7)) as [Hle|Hgt].
    + pose proof (round_up_to_8_bounds w Hw n ltac:(lia)).
      rewrite Z.mod_small; lia.
    + unfold SizeT.SIZE_MAX in Hgt.
      rewrite (round_up_to_8_wrap w Hw n) by (unfold SizeT.SIZE_MAX; lia).
      replace ((0 - n) mod SizeT.modulus w) with (SizeT.modulus w - n); [lia|].
      apply Z.mod_unique with (-1); lia.
  - split.
    + intros Hle. destruct (Z_le_gt_dec n (SizeT.SIZE_MAX w - 7)); [assumption|].
      unfold SizeT.SIZE_MAX in *.
      rewrite (round_up_to_8_wrap w Hw n) in Hle by (unfold SizeT.SIZE_MAX; lia).
      lia.
    + intros Hle. apply (round_up_to_8_bounds w Hw n). lia.
Qed.

Lemma round_up_to_8_contract_witness :
  16 <= 64 /\ SizeT.in_range 64 13 /\
  round_up_to_8 64 13 mod 8 = 0 /\
  SizeT.sub 64 (round_up_to_8 64 13) 13 < 8 /\
  (13 <= round_up_to_8 64 13 <-> 13 <= SizeT.SIZE_MAX 64 - 7).
Proof.
  split; [lia|]. split; [split; [lia | reflexivity]|].
  apply (round_up_to_8_contract 64 13); [lia | split; [lia | reflexivity]].
Defined.

(** C2: for every requested size [s], [actual_size] is [((s + 7) / 8) * 8]
    computed in [std::size_t], which is the same number over the integers
    whenever [s + 7] does not wrap, and with the default threshold 32 the buffer
    is inline if and only if [actual_size <= 32]; size 32 is inline, size 33
    has [actual_size] 40 and is not inline; with threshold 64, size 64 is
    inline and size 65 has [actual_size] 72 and is not inline. *)
Theorem actual_size_and_strategy (w s : Z) :
  16 <= w ->
  SizeT.in_range w s ->
  SmartBuffer.actual_size w s = spec_actual_size w s /\
  (s <= SizeT.SIZE_MAX w - 7 ->
   SmartBuffer.actual_size w s = ((s + 7) / 8) * 8) /\
  (SmartBuffer.is_static w s default_threshold = true <->
   SmartBuffer.actual_size w s <= 32) /\
  SmartBuffer.is_static w 32 default_threshold = true /\
  SmartBuffer.actual_size w 33 = 40 /\
  SmartBuffer.is_static w 33 default_threshold = false /\
  SmartBuffer.is_static w 64 64 = true /\
  SmartBuffer.actual_size w 65 = 72 /\
  SmartBuffer.is_static w 65 64 = false.
Proof.
  intros Hw [Hs0 Hs]. pose proof (modulus_ge w Hw) as Hm.
  assert (Hsmall : forall k, 0 <= k <= 100 -> round_up_to_8 w k = 8 * ((k + 7) / 8)).
  { intros k Hk. apply round_up_to_8_no_wrap; [assumption|].
    unfold SizeT.SIZE_MAX. lia. }
  unfold SmartBuffer.actual_size, SmartBuffer.is_static, SmartBuffer.static,
    use_static, ACTUAL_SIZE, STATIC_THRESHOLD, default_threshold.
  repeat split.
  - unfold spec_actual_size, SizeT.mul, SizeT.div, SizeT.add.
    rewrite (round_up_to_8_div w Hw).
    pose proof (Z.mod_pos_bound (s + 7) (SizeT.modulus w) ltac:(lia)) as Hb.
    pose proof (Z.mul_div_le ((s + 7) mod SizeT.modulus w) 8 ltac:(lia)).
    pose proof (Z.div_pos ((s + 7) mod SizeT.modulus w) 8 ltac:(lia) ltac:(lia)).
    set (x := (s + 7) mod SizeT.modulus w) in *.
    rewrite Z.mod_small; lia.
  - intros Hle. rewrite round_up_to_8_no_wrap by lia. lia.
  - apply Z.leb_le.
  - apply Z.leb_le.
  - rewrite Hsmall by lia. reflexivity.
  - rewrite Hsmall by lia. reflexivity.
  - rewrite Hsmall by lia. reflexivity.
  - rewrite Hsmall by lia. reflexivity.
  - rewrite Hsmall by lia. reflexivity.
  - rewrite Hsmall by lia. reflexivity.
Qed.

Lemma actual_size_and_strategy_witness :
  16 <= 64 /\ SizeT.in_range 64 33 /\
  SmartBuffer.actual_size 64 33 = spec_actual_size 64 33 /\
  (33 <= SizeT.SIZE_MAX 64 - 7 ->
   SmartBuffer.actual_size 64 33 = ((33 + 7) / 8) * 8) /\
  (SmartBuffer.is_static 64 33 default_threshold = true <->
   SmartBuffer.actual_size 64 33 <= 32).
Proof.
  split; [lia|]. split; [split; [lia | reflexivity]|].
  destruct (actual_size_and_strategy 64 33) as (H1 & H2 & H3 & _);
    [lia | split; [lia | reflexivity] | exact (conj H1 (conj H2 H3))].
Defined.

(** C3, at the input where the code departs from it: [SmartBuffer<0, 0>],
    which is [SmartBufferAlwaysDynamic<0>], has [ACTUAL_SIZE = 0], so
    [use_static] is [0 <= 0] and [is_static()] returns true, against the
    comment of the alias. *)
Theorem threshold_0_size_0_is_static :
  SmartBuffer.actual_size 64 0 = 0 /\
  SmartBuffer.static_threshold 0 = 0 /\
  SmartBuffer.is_static 64 0 0 = true.
Proof. repeat split; reflexivity. Qed.

(** What holds of the two extreme thresholds: with a threshold of 0 every
    requested size [s] with [1 <= s <= SIZE_MAX - 7] yields a non-inline
    (heap) buffer, but size 0 an inline one; with a threshold of [SIZE_MAX]
    every requested size yields an inline buffer. *)
Theorem threshold_extremes (w s : Z) :
  16 <= w ->
  SizeT.in_range w s ->
  (1 <= s <= SizeT.SIZE_MAX w - 7 -> SmartBuffer.is_static w s 0 = false) /\
  SmartBuffer.is_static w 0 0 = true /\
  SmartBuffer.is_static w s (SizeT.SIZE_MAX w) = true.
Proof.
  intros Hw [Hs0 Hs]. pose proof (modulus_ge w Hw) as Hm.
  unfold SmartBuffer.is_static, SmartBuffer.static, use_static, ACTUAL_SIZE,
    STATIC_THRESHOLD.
  repeat split.
  - intros Hr. apply Z.leb_gt.
    pose proof (round_up_to_8_bounds w Hw s ltac:(lia)). lia.
  - apply Z.leb_le. rewrite round_up_to_8_no_wrap by (unfold SizeT.SIZE_MAX; lia).
    reflexivity.
  - apply Z.leb_le. pose proof (round_up_to_8_range w Hw s).
    unfold SizeT.SIZE_MAX. lia.
Qed.

Lemma threshold_extremes_witness :
  16 <= 64 /\ SizeT.in_range 64 16 /\
  (1 <= 16 <= SizeT.SIZE_MAX 64 - 7 -> SmartBuffer.is_static 64 16 0 = false) /\
  SmartBuffer.is_static 64 0 0 = true /\
  SmartBuffer.is_static 64 16 (SizeT.SIZE_MAX 64) = true.
Proof.
  split; [lia|]. split; [split; [lia | reflexivity]|].
  apply (threshold_extremes 64 16); [lia | split; [lia | reflexivity]].
Defined.

(** ** Facts on memory *)

Lemma memory_eta m :
  Memory (objects m) (heap m) (capacity m) (allocations m) (releases m) = m.
Proof. destruct m; reflexivity. Qed.

Lemma region_set_region_eq p bs bs' m :
  region p m = Some bs -> region p (set_region p bs' m) = Some bs'.
Proof.
  destruct p as [|this|l]; simpl; intros H; [discriminate| |].
  - rewrite lookup_insert_eq. reflexivity.
  - apply lookup_insert_eq.
Qed.

Lemma region_set_region_ne p q bs m :
  p <> q -> region q (set_region p bs m) = region q m.
Proof.
  intros Hne. destruct p as [|a|l], q as [|b|k]; simpl; try reflexivity.
  - rewrite lookup_insert_ne by congruence. reflexivity.
  - rewrite lookup_insert_ne by congruence. reflexivity.
Qed.

Lemma set_region_twice p bs1 bs2 m :
  set_region p bs2 (set_region p bs1 m) = set_region p bs2 m.
Proof.
  destruct p; simpl; [reflexivity| |]; unfold with_objects, with_heap; simpl;
    rewrite insert_insert_eq; reflexivity.
Qed.

Lemma set_region_id p bs m : region p m = Some bs -> set_region p bs m = m.
Proof.
  destruct p as [|this|l]; simpl; intros H; [discriminate| |].
  - destruct (objects m !! this) as [[elems|q]|] eqn:E; try discriminate.
    injection H as ->. unfold with_objects.
    rewrite insert_id by assumption. apply memory_eta.
  - unfold with_heap. rewrite insert_id by assumption. apply memory_eta.
Qed.

Lemma store_ok p bs i v m :
  region p m = Some bs -> (i < length bs)%nat ->
  store p i v m = Ok tt (set_region p (<[i := v]> bs) m).
Proof.
  intros H Hi. unfold store. rewrite H.
  destruct (decide (i < length bs)%nat); [reflexivity | contradiction].
Qed.

Lemma load_ok p bs i b m :
  region p m = Some bs -> bs !! i = Some b -> load p i m = Ok b m.
Proof. intros H Hb. unfold load. rewrite H, Hb. reflexivity. Qed.

(** [std::fill_n] overwrites [n] bytes from index [i] on. *)
Lemma fill_n_from_ok p v n : forall i bs m,
  region p m = Some bs -> (i + n <= length bs)%nat ->
  fill_n_from p i n v m =
    Ok tt (set_region p (take i bs ++ replicate n v ++ drop (i + n) bs) m).
Proof.
  induction n as [|n IH]; intros i bs m Hr Hlen; simpl.
  - rewrite Nat.add_0_r, take_drop. unfold ret.
    rewrite (set_region_id _ _ _ Hr). reflexivity.
  - unfold bind. rewrite (store_ok p bs i v m Hr) by lia.
    rewrite (IH (S i) (<[i := v]> bs)).
    + rewrite set_region_twice. do 2 f_equal.
      rewrite (take_S_r _ _ v) by (apply list_lookup_insert_eq; lia).
      rewrite take_insert_ge by lia.
      rewrite drop_insert_lt by lia.
      rewrite <- app_assoc. simpl.
      replace (i + S n)%nat with (S (i + n)) by lia. reflexivity.
    + eapply region_set_region_eq; eassumption.
    + rewrite length_insert. lia.
Qed.

Lemma fill_n_ok p v n bs m :
  region p m = Some bs -> (n <= length bs)%nat ->
  fill_n p n v m = Ok tt (set_region p (replicate n v ++ drop n bs) m).
Proof.
  intros Hr Hn. unfold fill_n. rewrite (fill_n_from_ok p v n 0 bs m Hr) by lia.
  reflexivity.
Qed.

(** [std::copy_n] between two distinct regions. *)
Lemma copy_n_from_ok src dst s n : forall i d m,
  src <> dst ->
  region src m = Some s -> region dst m = Some d ->
  (i + n <= length s)%nat -> (i + n <= length d)%nat ->
  copy_n_from src i n dst m =
    Ok tt (set_region dst (take i d ++ take n (drop i s) ++ drop (i + n) d) m).
Proof.
  induction n as [|n IH]; intros i d m Hne Hs Hd Hls Hld; simpl.
  - rewrite Nat.add_0_r, take_drop. unfold ret.
    rewrite (set_region_id _ _ _ Hd). reflexivity.
  - destruct (lookup_lt_is_Some_2 s i ltac:(lia)) as [b Hb].
    unfold bind. rewrite (load_ok src s i b m Hs Hb).
    rewrite (store_ok dst d i b m Hd) by lia.
    rewrite (IH (S i) (<[i := b]> d)).
    + rewrite set_region_twice. do 2 f_equal.
      rewrite (take_S_r _ _ b) by (apply list_lookup_insert_eq; lia).
      rewrite take_insert_ge by lia.
      rewrite drop_insert_lt by lia.
      rewrite (drop_S s b i Hb).
      rewrite <- app_assoc. simpl.
      replace (i + S n)%nat with (S (i + n)) by lia. reflexivity.
    + assumption.
    + rewrite region_set_region_ne by congruence. assumption.
    + eapply region_set_region_eq; eassumption.
    + lia.
    + rewrite length_insert. lia.
Qed.

Lemma copy_n_ok src dst s d m :
  src <> dst ->
  region src m = Some s -> region dst m = Some d ->
  length s = length d ->
  copy_n src (length s) dst m = Ok tt (set_region dst s m).
Proof.
  intros Hne Hs Hd Hlen. unfold copy_n.
  rewrite (copy_n_from_ok src dst s (length s) 0 d m) by (assumption || lia).
  simpl. rewrite drop_0, firstn_all.
  rewrite drop_ge by lia. rewrite app_nil_r. reflexivity.
Qed.

(** ** Facts on the class *)

Section class_facts.
Import SmartBuffer.
Variables (w Size StaticThreshold : Z).

Local Abbreviation static := (SmartBuffer.static w Size StaticThreshold).
Local Abbreviation actual_len := (SmartBuffer.actual_len w Size).
Local Abbreviation size_len := (SmartBuffer.size_len Size).
Local Abbreviation wf := (SmartBuffer.wf w Size StaticThreshold).
Local Abbreviation data := (SmartBuffer.data w Size StaticThreshold).
Local Abbreviation mutate := (SmartBuffer.mutate w Size StaticThreshold).
Local Abbreviation mutate_all := (SmartBuffer.mutate_all w Size StaticThreshold).
Local Abbreviation effect := (SmartBuffer.effect w Size).
Local Abbreviation effects := (SmartBuffer.effects w Size).
Local Abbreviation in_bounds := (SmartBuffer.in_bounds w Size).

Lemma bind_Ok {A B} (c : M A) (k : A -> M B) m a m' :
  c m = Ok a m' -> bind c k m = k a m'.
Proof. intros H. unfold bind. rewrite H. reflexivity. Qed.

Lemma get_buffer_ok this s m :
  objects m !! this = Some s -> get_buffer this m = Ok s m.
Proof. intros H. unfold get_buffer. rewrite H. reflexivity. Qed.

Lemma contents_static this elems m :
  objects m !! this = Some (StaticBuffer elems) ->
  contents this m = Some elems.
Proof. intros H. unfold contents. rewrite H. reflexivity. Qed.

(** A handle with contents is a static array or owns a heap array. *)
Lemma contents_Some_inv this bs m :
  contents this m = Some bs ->
  objects m !! this = Some (StaticBuffer bs) \/
  exists l, objects m !! this = Some (DynamicBuffer (Some l)) /\
            heap m !! l = Some bs.
Proof.
  unfold contents. destruct (objects m !! this) as [[elems|[l|]]|];
    intros H; try discriminate.
  - left. congruence.
  - right. eauto.
Qed.

Lemma contents_length this bs m :
  wf m -> contents this m = Some bs -> length bs = actual_len.
Proof.
  intros Hwf H. destruct (contents_Some_inv _ _ _ H) as [Hs|(l & Ho & Hh)].
  - apply (wf_static _ _ _ _ Hwf this bs Hs).
  - destruct (wf_region _ _ _ _ Hwf this l Ho) as (bs' & Hb & Hlen). congruence.
Qed.

Lemma region_place this bs m :
  contents this m = Some bs -> region (place this m) m = Some bs.
Proof.
  intros H. destruct (contents_Some_inv _ _ _ H) as [Hs|(l & Ho & Hh)];
    unfold place; [rewrite Hs | rewrite Ho]; simpl; [rewrite Hs|]; done.
Qed.

Lemma data_ok this bs m :
  wf m -> contents this m = Some bs -> data this m = Ok (place this m) m.
Proof.
  intros Hwf H. unfold SmartBuffer.data, place.
  destruct (contents_Some_inv _ _ _ H) as [Hs|(l & Ho & Hh)].
  - destruct (wf_static _ _ _ _ Hwf this bs Hs) as [-> _].
    unfold array_data. rewrite (bind_Ok _ _ _ _ _ (get_buffer_ok _ _ _ Hs)).
    rewrite Hs. reflexivity.
  - rewrite (wf_dynamic _ _ _ _ Hwf this _ Ho).
    unfold unique_ptr_get. rewrite (bind_Ok _ _ _ _ _ (get_buffer_ok _ _ _ Ho)).
    rewrite Ho. reflexivity.
Qed.

Lemma contents_set_region_same this bs bs' m :
  contents this m = Some bs ->
  contents this (set_region (place this m) bs' m) = Some bs'.
Proof.
  intros H. destruct (contents_Some_inv _ _ _ H) as [Hs|(l & Ho & Hh)];
    unfold place, contents; [rewrite Hs | rewrite Ho]; simpl.
  - rewrite lookup_insert_eq. reflexivity.
  - rewrite Ho. apply lookup_insert_eq.
Qed.

Lemma contents_set_region_other this other bs bs' m :
  wf m -> contents this m = Some bs -> other <> this ->
  contents other (set_region (place this m) bs' m) = contents other m.
Proof.
  intros Hwf H Hne. destruct (contents_Some_inv _ _ _ H) as [Hs|(l & Ho & Hh)];
    unfold place, contents; [rewrite Hs | rewrite Ho]; simpl.
  - rewrite lookup_insert_ne by congruence. reflexivity.
  - destruct (objects m !! other) as [[elems|[k|]]|] eqn:E; try reflexivity.
    rewrite lookup_insert_ne; [reflexivity|].
    intros <-. apply Hne. exact (wf_unique _ _ _ _ Hwf other this l E Ho).
Qed.

Lemma wf_set_region this bs bs' m :
  wf m -> contents this m = Some bs -> length bs' = actual_len ->
  wf (set_region (place this m) bs' m).
Proof.
  intros Hwf H Hlen. pose proof Hwf as [H1 H2 H3 H4 H5].
  destruct (contents_Some_inv _ _ _ H) as [Hs|(l & Ho & Hh)];
    unfold place; [rewrite Hs | rewrite Ho]; simpl.
  - destruct (H1 _ _ Hs) as [Hst _].
    split; unfold owns; simpl.
    + intros a elems. rewrite lookup_insert. case_decide; [|apply H1].
      intros [= <-]. auto.
    + intros a p. rewrite lookup_insert. case_decide; [discriminate|apply H2].
    + intros a k. rewrite lookup_insert. case_decide; [discriminate|apply H3].
    + intros a b k. rewrite !lookup_insert.
      repeat case_decide; try discriminate. apply H4.
    + intros k Hk. destruct (H5 k Hk) as (a & Ha). exists a.
      rewrite lookup_insert. case_decide; [|exact Ha].
      subst a. unfold owns in Ha. congruence.
  - split; unfold owns; simpl; try assumption.
    + intros a k Ha. rewrite lookup_insert. case_decide; [eauto|].
      apply (H3 a k Ha).
    + intros k. rewrite lookup_insert. case_decide; [|apply H5].
      intros _. subst k. exists this. exact Ho.
Qed.

(** Without wrap-around the logical bytes fit in the region. *)
Lemma size_len_le_actual_len :
  16 <= w -> 0 <= Size <= SizeT.SIZE_MAX w - 7 ->
  (size_len <= actual_len)%nat.
Proof.
  intros Hw Hs. unfold SmartBuffer.size_len, SmartBuffer.actual_len, ACTUAL_SIZE.
  pose proof (round_up_to_8_bounds w Hw Size Hs). lia.
Qed.

Lemma effect_length mu bs :
  length bs = actual_len -> (size_len <= actual_len)%nat ->
  length (effect mu bs) = actual_len.
Proof.
  intros Hlen Hle. destruct mu; simpl;
    rewrite ?length_insert, ?length_app, ?length_replicate, ?length_drop; lia.
Qed.

(** Each write of the access surface replaces the bytes of its own region
    by their [effect]. *)
Lemma mutate_ok this mu bs m :
  wf m -> contents this m = Some bs ->
  (size_len <= actual_len)%nat -> in_bounds mu ->
  mutate this mu m = Ok tt (set_region (place this m) (effect mu bs) m).
Proof.
  intros Hwf Hc Hle Hin.
  pose proof (contents_length _ _ _ Hwf Hc) as Hlen.
  pose proof (region_place _ _ _ Hc) as Hr.
  pose proof (data_ok _ _ _ Hwf Hc) as Hd.
  destruct mu as [index v|value| |value| ]; simpl;
    unfold SmartBuffer.subscript_assign, SmartBuffer.clear,
      SmartBuffer.clear_all, SmartBuffer.fill, SmartBuffer.fill_all;
    rewrite (bind_Ok _ _ _ _ _ Hd).
  - apply store_ok; [assumption|]. simpl in Hin. lia.
  - apply fill_n_ok; [assumption|lia].
  - apply fill_n_ok; [assumption|lia].
  - apply fill_n_ok; [assumption|lia].
  - apply fill_n_ok; [assumption|lia].
Qed.

Lemma through_cons_eq this mu ops :
  through this ((this, mu) :: ops) = mu :: through this ops.
Proof.
  unfold through. rewrite filter_cons. simpl.
  destruct (decide (this = this)); [reflexivity | contradiction].
Qed.

Lemma through_cons_ne this other mu ops :
  other <> this -> through this ((other, mu) :: ops) = through this ops.
Proof.
  intros Hne. unfold through. rewrite filter_cons. simpl.
  destruct (decide (other = this)); [contradiction | reflexivity].
Qed.

(** A sequence of writes acts on each handle by the writes that go through
    it, in order, whatever goes through the other handles. *)
Lemma mutate_all_ok ops : forall m,
  wf m -> (size_len <= actual_len)%nat ->
  Forall (fun op => is_Some (contents (fst op) m) /\ in_bounds (snd op)) ops ->
  exists m',
    mutate_all ops m = Ok tt m' /\ wf m' /\
    forall a bs, contents a m = Some bs ->
                 contents a m' = Some (effects (through a ops) bs).
Proof.
  induction ops as [|[this mu] ops IH]; intros m Hwf Hle Hall.
  - exists m. split; [reflexivity|]. split; [assumption|].
    intros a bs Ha. exact Ha.
  - inversion Hall as [|? ? [[bs Hc] Hin] Hrest]; subst. simpl in Hc, Hin.
    pose proof (contents_length _ _ _ Hwf Hc) as Hlen.
    set (m1 := set_region (place this m) (effect mu bs) m).
    assert (Hwf1 : wf m1).
    { apply (wf_set_region this bs); auto using effect_length. }
    assert (Hframe : forall a, contents a m1 =
              if decide (a = this) then Some (effect mu bs) else contents a m).
    { intros a. case_decide as Ha.
      - subst a. apply (contents_set_region_same this bs). assumption.
      - apply (contents_set_region_other this a bs); assumption. }
    destruct (IH m1 Hwf1 Hle) as (m' & Hrun & Hwf' & Hcont).
    { eapply Forall_impl; [exact Hrest|]. intros [a mu'] [[bs' Ha] Hin']. simpl in *.
      split; [|assumption]. rewrite Hframe. case_decide; eauto. }
    exists m'. split; [|split; [assumption|]].
    + simpl. rewrite (bind_Ok _ _ _ _ _ (mutate_ok this mu bs m Hwf Hc Hle Hin)).
      exact Hrun.
    + intros a bs' Ha. destruct (decide (a = this)) as [->|Hne].
      * rewrite through_cons_eq. simpl.
        apply Hcont. rewrite Hframe. rewrite decide_True by reflexivity.
        congruence.
      * rewrite through_cons_ne by congruence.
        apply Hcont. rewrite Hframe. rewrite decide_False by assumption.
        assumption.
Qed.

(** Reading through [operator[]]. *)
Lemma subscript_static this elems index b m :
  static = true ->
  objects m !! this = Some (StaticBuffer elems) -> elems !! index = Some b ->
  subscript w Size StaticThreshold this index m = Ok b m.
Proof.
  intros Hst Ho Hb. unfold subscript, SmartBuffer.data. rewrite Hst.
  unfold array_data, bind, get_buffer. rewrite Ho.
  apply (load_ok _ elems); [simpl; rewrite Ho|]; done.
Qed.

Lemma subscript_dynamic this l bs index b m :
  static = false ->
  objects m !! this = Some (DynamicBuffer (Some l)) ->
  heap m !! l = Some bs -> bs !! index = Some b ->
  subscript w Size StaticThreshold this index m = Ok b m.
Proof.
  intros Hst Ho Hh Hb. unfold subscript, SmartBuffer.data. rewrite Hst.
  unfold unique_ptr_get, bind, get_buffer. rewrite Ho.
  apply (load_ok _ bs); done.
Qed.

Lemma subscript_ok this bs index b m :
  wf m -> contents this m = Some bs -> bs !! index = Some b ->
  subscript w Size StaticThreshold this index m = Ok b m.
Proof.
  intros Hwf Hc Hb. unfold subscript.
  rewrite (bind_Ok _ _ _ _ _ (data_ok _ _ _ Hwf Hc)).
  apply (load_ok _ bs); [apply region_place|]; assumption.
Qed.

(** The array [new[]] hands out is not live before. *)
Lemma fresh_heap m : heap m !! fresh (dom (heap m)) = None.
Proof. apply not_elem_of_dom. apply is_fresh. Qed.

(** Storing a static array in an object that owns nothing. *)
Lemma wf_put_static this elems m :
  wf m -> static = true -> length elems = actual_len ->
  wf (with_objects (<[this := StaticBuffer elems]> (objects m)) m).
Proof.
  intros [H1 H2 H3 H4 H5] Hst Hlen.
  assert (Hno : forall a p, objects m !! a = Some (DynamicBuffer p) -> False).
  { intros a p Ha. specialize (H2 a p Ha). congruence. }
  split; unfold owns; simpl.
  - intros a e. rewrite lookup_insert. case_decide; [|apply H1].
    intros [= <-]. auto.
  - intros a p. rewrite lookup_insert. case_decide; [discriminate|apply H2].
  - intros a k. rewrite lookup_insert. case_decide; [discriminate|apply H3].
  - intros a b k. rewrite !lookup_insert.
    repeat case_decide; try discriminate. apply H4.
  - intros k Hk. destruct (H5 k Hk) as (a & Ha). exfalso. eauto.
Qed.

(** A handle that owns nothing takes a fresh array. *)
Lemma wf_adopt this l bs m c al r :
  wf m -> static = false ->
  (forall k, ~ owns m this k) ->
  heap m !! l = None -> length bs = actual_len ->
  wf (Memory (<[this := DynamicBuffer (Some l)]> (objects m))
             (<[l := bs]> (heap m)) c al r).
Proof.
  intros [H1 H2 H3 H4 H5] Hst Hno Hl Hlen.
  assert (Hne : forall a k, owns m a k -> k <> l).
  { intros a k Ha ->. destruct (H3 a l Ha) as (bs' & Hb & _). congruence. }
  split; unfold owns in *; simpl.
  - intros a e. rewrite lookup_insert. case_decide; [discriminate|apply H1].
  - intros a p. rewrite lookup_insert. case_decide; [auto|apply H2].
  - intros a k. rewrite lookup_insert. case_decide.
    + intros [= <-]. rewrite lookup_insert_eq. eauto.
    + intros Ha. rewrite lookup_insert_ne by (symmetry; eauto). eauto.
  - intros a b k. rewrite !lookup_insert. repeat case_decide; subst.
    + reflexivity.
    + intros [= <-] Hb. exfalso. exact (Hne b l Hb eq_refl).
    + intros Ha [= <-]. exfalso. exact (Hne a l Ha eq_refl).
    + apply H4.
  - intros k. rewrite lookup_insert. case_decide.
    + intros _. subst k. exists this. rewrite lookup_insert_eq. reflexivity.
    + intros Hk. destruct (H5 k Hk) as (a & Ha). exists a.
      rewrite lookup_insert. case_decide; [|exact Ha].
      subst a. exfalso. exact (Hno k Ha).
Qed.

(** The last three steps of a heap copy: both pointers are read and
    [ACTUAL_SIZE] bytes copied. *)
Lemma copy_region_ok this other lt ls bs d m :
  objects m !! other = Some (DynamicBuffer (Some ls)) ->
  objects m !! this = Some (DynamicBuffer (Some lt)) ->
  ls <> lt ->
  heap m !! ls = Some bs -> heap m !! lt = Some d ->
  length bs = actual_len -> length d = actual_len ->
  (let* src := unique_ptr_get other in
   let* dst := unique_ptr_get this in
   copy_n src actual_len dst) m
  = Ok tt (with_heap (<[lt := bs]> (heap m)) m).
Proof.
  intros Ho Ht Hne Hs Hd Hlb Hld.
  unfold unique_ptr_get, bind, get_buffer. rewrite Ho. simpl. rewrite Ht. simpl.
  rewrite <- Hlb.
  rewrite (copy_n_ok (HeapData ls) (HeapData lt) bs d); simpl; congruence.
Qed.

(** *** What the constructors and assignments compute *)

Lemma ctor_default_static this junk m :
  static = true -> objects m !! this = None ->
  ctor_default w Size StaticThreshold this junk m =
    Ok tt (with_objects
             (<[this := StaticBuffer (replicate actual_len x00)]> (objects m)) m).
Proof.
  intros Hst Hnew. unfold ctor_default. rewrite Hst.
  unfold bind at 1. unfold begin_lifetime. rewrite Hnew.
  unfold array_fill, array_data, bind, get_buffer, ret. simpl.
  rewrite lookup_insert_eq.
  rewrite (fill_n_ok _ _ _ (map junk (seq 0 actual_len))).
  - simpl. unfold with_objects. simpl. rewrite insert_insert_eq.
    rewrite drop_ge by (rewrite length_map, length_seq; lia).
    rewrite app_nil_r. reflexivity.
  - simpl. rewrite lookup_insert_eq. reflexivity.
  - rewrite length_map, length_seq. lia.
Qed.

Lemma ctor_default_dynamic this junk m :
  static = false -> objects m !! this = None ->
  (actual_len <= capacity m)%nat ->
  ctor_default w Size StaticThreshold this junk m =
    let l := fresh (dom (heap m)) in
    Ok tt (Memory (<[this := DynamicBuffer (Some l)]> (objects m))
                  (<[l := replicate actual_len x00]> (heap m))
                  (capacity m - actual_len) (S (allocations m)) (releases m)).
Proof.
  intros Hst Hnew Hcap. unfold ctor_default. rewrite Hst.
  unfold bind at 1. unfold begin_lifetime. rewrite Hnew.
  unfold bind at 1. unfold make_unique. simpl.
  rewrite decide_True by assumption.
  unfold unique_ptr_reset, unique_ptr_get, bind, get_buffer, set_buffer, ret. simpl.
  rewrite lookup_insert_eq. simpl. rewrite lookup_insert_eq. simpl.
  rewrite lookup_insert_eq. simpl.
  rewrite (fill_n_ok _ _ _ (replicate actual_len x00)).
  - simpl. unfold with_heap. simpl. rewrite !insert_insert_eq.
    rewrite drop_ge by (rewrite length_replicate; lia).
    rewrite app_nil_r. reflexivity.
  - simpl. rewrite lookup_insert_eq. reflexivity.
  - rewrite length_replicate. lia.
Qed.

Lemma array_assign_ok this other e bs m :
  objects m !! this = Some (StaticBuffer e) ->
  objects m !! other = Some (StaticBuffer bs) ->
  array_assign this other m =
    Ok tt (with_objects (<[this := StaticBuffer bs]> (objects m)) m).
Proof.
  intros Ht Ho. unfold array_assign, bind, get_buffer, set_buffer.
  rewrite Ho, Ht. simpl. rewrite Ht. reflexivity.
Qed.

Lemma ctor_copy_static this other junk bs m :
  static = true -> objects m !! this = None ->
  objects m !! other = Some (StaticBuffer bs) ->
  ctor_copy w Size StaticThreshold this other junk m =
    Ok tt (with_objects (<[this := StaticBuffer bs]> (objects m)) m).
Proof.
  intros Hst Hnew Ho. assert (Hne : this <> other) by congruence.
  unfold ctor_copy. rewrite Hst.
  unfold bind at 1. unfold begin_lifetime. rewrite Hnew.
  erewrite array_assign_ok.
  - unfold with_objects. simpl. rewrite insert_insert_eq. reflexivity.
  - simpl. apply lookup_insert_eq.
  - simpl. rewrite lookup_insert_ne by assumption. exact Ho.
Qed.

Lemma ctor_move_static this other junk bs m :
  static = true -> objects m !! this = None ->
  objects m !! other = Some (StaticBuffer bs) ->
  ctor_move w Size StaticThreshold this other junk m =
    Ok tt (with_objects (<[this := StaticBuffer bs]> (objects m)) m).
Proof.
  intros Hst Hnew Ho. rewrite <- (ctor_copy_static this other junk bs m Hst Hnew Ho).
  unfold ctor_move, ctor_copy, array_move_assign. rewrite Hst. reflexivity.
Qed.

Lemma make_unique_ok n m :
  (n <= capacity m)%nat ->
  make_unique n m =
    Ok (fresh (dom (heap m)))
       (Memory (objects m) (<[fresh (dom (heap m)) := replicate n x00]> (heap m))
               (capacity m - n) (S (allocations m)) (releases m)).
Proof. intros H. unfold make_unique. rewrite decide_True by assumption. reflexivity. Qed.

Lemma unique_ptr_reset_null this p m :
  objects m !! this = Some (DynamicBuffer None) ->
  unique_ptr_reset this p m =
    Ok tt (with_objects (<[this := DynamicBuffer p]> (objects m)) m).
Proof.
  intros H. unfold unique_ptr_reset, bind, get_buffer, set_buffer, ret.
  rewrite H. simpl. rewrite H. reflexivity.
Qed.

Lemma unique_ptr_release_ok this p m :
  objects m !! this = Some (DynamicBuffer p) ->
  unique_ptr_release this m =
    Ok p (with_objects (<[this := DynamicBuffer None]> (objects m)) m).
Proof.
  intros H. unfold unique_ptr_release, bind, get_buffer, set_buffer, ret.
  rewrite H. simpl. rewrite H. reflexivity.
Qed.

Lemma unique_ptr_bool_ok this p m :
  objects m !! this = Some (DynamicBuffer p) ->
  unique_ptr_bool this m = Ok (bool_decide (is_Some p)) m.
Proof.
  intros H. unfold unique_ptr_bool, bind, get_buffer, ret.
  rewrite H. reflexivity.
Qed.

(** A null handle is given a fresh array, then the source is copied. *)
Lemma acquire_and_copy this other ls bs m :
  objects m !! this = Some (DynamicBuffer None) ->
  objects m !! other = Some (DynamicBuffer (Some ls)) ->
  heap m !! ls = Some bs -> length bs = actual_len ->
  (actual_len <= capacity m)%nat ->
  (let* l := make_unique actual_len in
   let* _ := unique_ptr_reset this (Some l) in
   let* src := unique_ptr_get other in
   let* dst := unique_ptr_get this in
   copy_n src actual_len dst) m =
  let l := fresh (dom (heap m)) in
  Ok tt (Memory (<[this := DynamicBuffer (Some l)]> (objects m))
                (<[l := bs]> (heap m))
                (capacity m - actual_len) (S (allocations m)) (releases m)).
Proof.
  intros Ht Ho Hs Hlen Hcap. assert (Hne : this <> other) by congruence.
  pose proof (fresh_heap m) as Hl. set (l := fresh (dom (heap m))) in *.
  rewrite (bind_Ok _ _ _ _ _ (make_unique_ok _ _ Hcap)). fold l.
  erewrite bind_Ok by (apply unique_ptr_reset_null; exact Ht).
  erewrite (copy_region_ok this other l ls bs (replicate actual_len x00)); simpl.
  - unfold with_heap. simpl. rewrite insert_insert_eq. reflexivity.
  - rewrite lookup_insert_ne by assumption. exact Ho.
  - apply lookup_insert_eq.
  - congruence.
  - rewrite lookup_insert_ne by congruence. exact Hs.
  - apply lookup_insert_eq.
  - exact Hlen.
  - apply length_replicate.
Qed.

Lemma ctor_copy_dynamic this other junk ls bs m :
  static = false -> objects m !! this = None ->
  objects m !! other = Some (DynamicBuffer (Some ls)) ->
  heap m !! ls = Some bs -> length bs = actual_len ->
  (actual_len <= capacity m)%nat ->
  ctor_copy w Size StaticThreshold this other junk m =
    let l := fresh (dom (heap m)) in
    Ok tt (Memory (<[this := DynamicBuffer (Some l)]> (objects m))
                  (<[l := bs]> (heap m))
                  (capacity m - actual_len) (S (allocations m)) (releases m)).
Proof.
  intros Hst Hnew Ho Hs Hlen Hcap. assert (Hne : this <> other) by congruence.
  unfold ctor_copy. rewrite Hst.
  unfold bind at 1. unfold begin_lifetime. rewrite Hnew.
  erewrite (acquire_and_copy this other ls bs); simpl.
  - rewrite insert_insert_eq. reflexivity.
  - apply lookup_insert_eq.
  - rewrite lookup_insert_ne by assumption. exact Ho.
  - exact Hs.
  - exact Hlen.
  - exact Hcap.
Qed.

(** The pointer moves to the new handle, the source is left null. *)
Lemma ctor_move_dynamic this other junk p m :
  static = false -> objects m !! this = None ->
  objects m !! other = Some (DynamicBuffer p) ->
  ctor_move w Size StaticThreshold this other junk m =
    Ok tt (with_objects
             (<[this := DynamicBuffer p]>
                (<[other := DynamicBuffer None]> (objects m))) m).
Proof.
  intros Hst Hnew Ho. assert (Hne : this <> other) by congruence.
  unfold ctor_move. rewrite Hst.
  unfold bind at 1. unfold begin_lifetime. rewrite Hnew.
  unfold unique_ptr_move_assign.
  erewrite bind_Ok
    by (apply (unique_ptr_release_ok other p); simpl;
        rewrite lookup_insert_ne by assumption; exact Ho).
  erewrite unique_ptr_reset_null.
  - unfold with_objects. simpl.
    rewrite (insert_insert_ne _ other this) by congruence.
    rewrite insert_insert_eq. reflexivity.
  - simpl. rewrite lookup_insert_ne by congruence. apply lookup_insert_eq.
Qed.

Lemma copy_assign_static this other e bs m :
  this <> other -> static = true ->
  objects m !! this = Some (StaticBuffer e) ->
  objects m !! other = Some (StaticBuffer bs) ->
  copy_assign w Size StaticThreshold this other m =
    Ok tt (with_objects (<[this := StaticBuffer bs]> (objects m)) m).
Proof.
  intros Hne Hst Ht Ho. unfold copy_assign.
  rewrite decide_True by assumption. rewrite Hst.
  apply (array_assign_ok this other e bs); assumption.
Qed.

Lemma move_assign_static this other e bs m :
  this <> other -> static = true ->
  objects m !! this = Some (StaticBuffer e) ->
  objects m !! other = Some (StaticBuffer bs) ->
  move_assign w Size StaticThreshold this other m =
    Ok tt (with_objects (<[this := StaticBuffer bs]> (objects m)) m).
Proof.
  intros Hne Hst Ht Ho. unfold move_assign, array_move_assign.
  rewrite decide_True by assumption. rewrite Hst.
  apply (array_assign_ok this other e bs); assumption.
Qed.

(** A target that holds an array keeps it and is overwritten. *)
Lemma copy_assign_reuse this other lt ls bs d m :
  this <> other -> static = false ->
  objects m !! this = Some (DynamicBuffer (Some lt)) ->
  objects m !! other = Some (DynamicBuffer (Some ls)) ->
  ls <> lt ->
  heap m !! ls = Some bs -> heap m !! lt = Some d ->
  length bs = actual_len -> length d = actual_len ->
  copy_assign w Size StaticThreshold this other m =
    Ok tt (with_heap (<[lt := bs]> (heap m)) m).
Proof.
  intros Hne Hst Ht Ho Hl Hs Hd Hlb Hld. unfold copy_assign.
  rewrite decide_True by assumption. rewrite Hst.
  rewrite (bind_Ok _ _ _ _ _ (unique_ptr_bool_ok this _ m Ht)).
  rewrite bool_decide_true by eauto. simpl.
  unfold bind at 1. unfold ret at 1.
  apply (copy_region_ok this other lt ls bs d); assumption.
Qed.

(** A null target allocates first. *)
Lemma copy_assign_fresh this other ls bs m :
  this <> other -> static = false ->
  objects m !! this = Some (DynamicBuffer None) ->
  objects m !! other = Some (DynamicBuffer (Some ls)) ->
  heap m !! ls = Some bs -> length bs = actual_len ->
  (actual_len <= capacity m)%nat ->
  copy_assign w Size StaticThreshold this other m =
    let l := fresh (dom (heap m)) in
    Ok tt (Memory (<[this := DynamicBuffer (Some l)]> (objects m))
                  (<[l := bs]> (heap m))
                  (capacity m - actual_len) (S (allocations m)) (releases m)).
Proof.
  intros Hne Hst Ht Ho Hs Hlen Hcap.
  rewrite <- (acquire_and_copy this other ls bs m Ht Ho Hs Hlen Hcap).
  unfold copy_assign.
  rewrite decide_True by assumption. rewrite Hst.
  rewrite (bind_Ok _ _ _ _ _ (unique_ptr_bool_ok this _ m Ht)).
  rewrite bool_decide_false by (intros [? ?]; discriminate). simpl.
  unfold bind. destruct (make_unique actual_len m); reflexivity.
Qed.

Lemma copy_assign_self this m :
  copy_assign w Size StaticThreshold this this m = Ok tt m.
Proof.
  unfold copy_assign. rewrite decide_False by (intros H; apply H; reflexivity).
  reflexivity.
Qed.

Lemma move_assign_self this m :
  move_assign w Size StaticThreshold this this m = Ok tt m.
Proof.
  unfold move_assign. rewrite decide_False by (intros H; apply H; reflexivity).
  reflexivity.
Qed.

End class_facts.

(** ** The lifecycle and the access surface: the claims *)

Lemma wf_empty w Size StaticThreshold cap :
  SmartBuffer.wf w Size StaticThreshold (empty_memory cap).
Proof.
  split; unfold SmartBuffer.owns; simpl; intros *;
    rewrite ?lookup_empty; try discriminate.
  intros [? ?]. discriminate.
Qed.

Lemma wf_null_handle w Size StaticThreshold this m :
  SmartBuffer.wf w Size StaticThreshold m ->
  SmartBuffer.static w Size StaticThreshold = false ->
  (forall k, ~ SmartBuffer.owns m this k) ->
  SmartBuffer.wf w Size StaticThreshold
    (with_objects (<[this := DynamicBuffer None]> (objects m)) m).
Proof.
  intros [H1 H2 H3 H4 H5] Hst Hno.
  split; unfold SmartBuffer.owns in *; simpl.
  - intros a e. rewrite lookup_insert. case_decide; [discriminate|apply H1].
  - intros a p. rewrite lookup_insert. case_decide; [auto|apply H2].
  - intros a k. rewrite lookup_insert. case_decide; [discriminate|apply H3].
  - intros a b k. rewrite !lookup_insert.
    repeat case_decide; try discriminate. apply H4.
  - intros k Hk. destruct (H5 k Hk) as (a & Ha). exists a.
    rewrite lookup_insert. case_decide; [|exact Ha].
    subst a. exfalso. exact (Hno k Ha).
Qed.

Lemma wf_heap_sample : SmartBuffer.wf 64 33 32 heap_sample.
Proof.
  pose proof (wf_adopt 64 33 32 1%positive 5%positive (replicate 40 x07)
           (with_objects (<[2%positive := DynamicBuffer None]> ∅)
              (empty_memory 64)) 64%nat 1%nat 0%nat) as H.
  simpl in H. apply H; try reflexivity; clear H.
  - apply (wf_null_handle 64 33 32 2%positive (empty_memory 64));
      [apply wf_empty | reflexivity |].
    intros k Hk. discriminate Hk.
  - intros k Hk. discriminate Hk.
Qed.

Lemma wf_static_sample : SmartBuffer.wf 64 13 32 static_sample.
Proof.
  pose proof (wf_put_static 64 13 32 1%positive (replicate 16 x07)
           (with_objects (<[2%positive := StaticBuffer (replicate 16 x00)]> ∅)
              (empty_memory 0))) as H.
  simpl in H. apply H; try reflexivity; clear H.
  apply (wf_put_static 64 13 32 2%positive (replicate 16 x00) (empty_memory 0));
    try reflexivity.
  apply wf_empty.
Qed.

(** C4: a default-constructed buffer of any size and threshold has all
    [actual_size] bytes, logical bytes and padding, equal to 0, whatever the
    storage held before; in the heap case provided the allocation
    succeeds. *)
Theorem default_constructed_is_zero
    (w Size StaticThreshold : Z) (this : address) (junk : nat -> byte)
    (m : memory) :
  objects m !! this = None ->
  (SmartBuffer.static w Size StaticThreshold = false ->
   (SmartBuffer.actual_len w Size <= capacity m)%nat) ->
  exists m',
    SmartBuffer.ctor_default w Size StaticThreshold this junk m = Ok tt m' /\
    SmartBuffer.contents this m' =
      Some (replicate (SmartBuffer.actual_len w Size) x00) /\
    forall index, (index < SmartBuffer.actual_len w Size)%nat ->
      SmartBuffer.subscript w Size StaticThreshold this index m' = Ok x00 m'.
Proof.
  intros Hnew Hcap.
  destruct (SmartBuffer.static w Size StaticThreshold) eqn:Hst.
  - eexists. split; [apply ctor_default_static; assumption|].
    split.
    + unfold SmartBuffer.contents. simpl. rewrite lookup_insert_eq. reflexivity.
    + intros index Hi.
      eapply subscript_static; [exact Hst | apply lookup_insert_eq |].
      apply lookup_replicate_2. exact Hi.
  - eexists. split; [apply ctor_default_dynamic; auto|].
    cbv zeta. split.
    + unfold SmartBuffer.contents. simpl. rewrite lookup_insert_eq.
      apply lookup_insert_eq.
    + intros index Hi.
      eapply subscript_dynamic;
        [exact Hst | apply lookup_insert_eq | apply lookup_insert_eq |].
      apply lookup_replicate_2. exact Hi.
Qed.

Lemma default_constructed_is_zero_witness :
  let m := empty_memory 64 in
  objects m !! 1%positive = None /\
  (SmartBuffer.static 64 33 32 = false ->
   (SmartBuffer.actual_len 64 33 <= capacity m)%nat) /\
  exists m',
    SmartBuffer.ctor_default 64 33 32 1%positive (fun _ => xff) m = Ok tt m' /\
    SmartBuffer.contents 1%positive m' =
      Some (replicate (SmartBuffer.actual_len 64 33) x00) /\
    forall index, (index < SmartBuffer.actual_len 64 33)%nat ->
      SmartBuffer.subscript 64 33 32 1%positive index m' = Ok x00 m'.
Proof.
  assert (Hcap : SmartBuffer.static 64 33 32 = false ->
                 (SmartBuffer.actual_len 64 33 <= capacity (empty_memory 64))%nat).
  { intros _. vm_compute. lia. }
  split; [reflexivity|]. split; [exact Hcap|].
  apply (default_constructed_is_zero 64 33 32 1%positive (fun _ => xff)
           (empty_memory 64)); [reflexivity | exact Hcap].
Defined.

(** The copy constructor returns, in a memory that is well formed again
    and where both handles hold the bytes of the source. *)
Lemma ctor_copy_ok (w Size StaticThreshold : Z) (c h : address)
    (junk : nat -> byte) (bs : list byte) (m : memory) :
  SmartBuffer.wf w Size StaticThreshold m ->
  SmartBuffer.contents h m = Some bs ->
  objects m !! c = None ->
  (SmartBuffer.static w Size StaticThreshold = false ->
   (SmartBuffer.actual_len w Size <= capacity m)%nat) ->
  exists m',
    SmartBuffer.ctor_copy w Size StaticThreshold c h junk m = Ok tt m' /\
    SmartBuffer.wf w Size StaticThreshold m' /\
    SmartBuffer.contents c m' = Some bs /\
    SmartBuffer.contents h m' = Some bs.
Proof.
  intros Hwf Hc Hnew Hcap.
  pose proof (contents_length _ _ _ _ _ _ Hwf Hc) as Hlen.
  destruct (contents_Some_inv _ _ _ Hc) as [Hs|(l & Ho & Hh)].
  - destruct (SmartBuffer.wf_static _ _ _ _ Hwf h bs Hs) as [Hst _].
    assert (Hne : c <> h) by congruence.
    eexists. split; [apply ctor_copy_static; eassumption|].
    split; [apply wf_put_static; assumption|].
    unfold SmartBuffer.contents. simpl.
    rewrite lookup_insert_eq, lookup_insert_ne, Hs by assumption. auto.
  - pose proof (SmartBuffer.wf_dynamic _ _ _ _ Hwf h _ Ho) as Hst.
    assert (Hne : c <> h) by congruence.
    pose proof (fresh_heap m) as Hl.
    assert (Hll : fresh (dom (heap m)) <> l) by congruence.
    eexists. split; [eapply ctor_copy_dynamic; eauto|]. cbv zeta.
    split.
    + apply wf_adopt; try assumption.
      intros k Hk. unfold SmartBuffer.owns in Hk. congruence.
    + unfold SmartBuffer.contents. simpl. split.
      * rewrite !lookup_insert_eq. reflexivity.
      * rewrite lookup_insert_ne, Ho by assumption.
        rewrite lookup_insert_ne by assumption. exact Hh.
Qed.

(** The requested size of a [SmartBuffer<SIZE_MAX>] is not 0. *)
Lemma size_len_size_max_pos :
  (0 < SmartBuffer.size_len (SizeT.SIZE_MAX 64))%nat.
Proof.
  unfold SmartBuffer.size_len. change 0%nat with (Z.to_nat 0).
  apply Z2Nat.inj_lt; [lia | discriminate | reflexivity].
Qed.

Lemma wf_size_max_sample :
  SmartBuffer.wf 64 (SizeT.SIZE_MAX 64) 32 size_max_sample.
Proof.
  pose proof (wf_put_static 64 (SizeT.SIZE_MAX 64) 32 1%positive []
                (empty_memory 0)) as H.
  simpl in H. apply H; try reflexivity. apply wf_empty.
Qed.

(** C5 fails as stated: a [SmartBuffer<SIZE_MAX>] is a non-moved-from
    buffer with [size() > 0] and a region of 0 bytes; its copy is
    constructed, but index 0, which is below [size()], reads no byte of the
    copy: [c[0]] is undefined behaviour. *)
Lemma copy_unreadable_at_size_max :
  let Size := SizeT.SIZE_MAX 64 in
  let m' := with_objects (<[2%positive := StaticBuffer []]>
                            (objects size_max_sample)) size_max_sample in
  SmartBuffer.ctor_default 64 Size 32 1%positive (fun _ => xff)
    (empty_memory 0) = Ok tt size_max_sample /\
  SmartBuffer.wf 64 Size 32 size_max_sample /\
  SmartBuffer.contents 1%positive size_max_sample = Some [] /\
  SmartBuffer.ctor_copy 64 Size 32 2%positive 1%positive (fun _ => xff)
    size_max_sample = Ok tt m' /\
  (0 < SmartBuffer.size_len Size)%nat /\
  ~ (exists b,
       SmartBuffer.subscript 64 Size 32 2%positive 0 m' = Ok b m' /\
       SmartBuffer.subscript 64 Size 32 1%positive 0 m' = Ok b m').
Proof.
  cbv zeta.
  assert (Hst : SmartBuffer.static 64 (SizeT.SIZE_MAX 64) 32 = true)
    by reflexivity.
  assert (Hn : SmartBuffer.actual_len 64 (SizeT.SIZE_MAX 64) = 0%nat)
    by reflexivity.
  split; [|split; [exact wf_size_max_sample|]];
    [|split; [reflexivity|split; [|split; [exact size_len_size_max_pos|]]]].
  - rewrite (ctor_default_static 64 (SizeT.SIZE_MAX 64) 32 1%positive
               (fun _ => xff) (empty_memory 0) Hst eq_refl).
    rewrite Hn. reflexivity.
  - apply (ctor_copy_static 64 (SizeT.SIZE_MAX 64) 32 2%positive 1%positive
             (fun _ => xff) [] size_max_sample Hst); reflexivity.
  - intros (b & Hc & _). revert Hc.
    unfold SmartBuffer.subscript, SmartBuffer.data. rewrite Hst.
    unfold array_data, bind, get_buffer, ret, load. simpl. discriminate.
Qed.

(** C5, amended: for a requested size with [Size <= SIZE_MAX - 7], so that
    the logical bytes lie in the region, copy-constructing a non-moved-from
    buffer [h] yields a buffer [c] with [c[i] == h[i]] for every index
    below [size()], and any later sequence of writes through the two
    handles (single bytes, [fill], [clear], [fill_all], [clear_all]) acts on
    each buffer by the writes made through it alone. *)
Theorem copy_is_independent (w Size StaticThreshold : Z) (c h : address)
    (junk : nat -> byte) (bs : list byte) (m : memory) :
  16 <= w -> 0 <= Size <= SizeT.SIZE_MAX w - 7 ->
  SmartBuffer.wf w Size StaticThreshold m ->
  SmartBuffer.contents h m = Some bs ->
  objects m !! c = None ->
  (SmartBuffer.static w Size StaticThreshold = false ->
   (SmartBuffer.actual_len w Size <= capacity m)%nat) ->
  exists m',
    SmartBuffer.ctor_copy w Size StaticThreshold c h junk m = Ok tt m' /\
    (forall i, (i < SmartBuffer.size_len Size)%nat ->
       exists b,
         SmartBuffer.subscript w Size StaticThreshold c i m' = Ok b m' /\
         SmartBuffer.subscript w Size StaticThreshold h i m' = Ok b m') /\
    (forall ops,
       Forall (fun op => (fst op = c \/ fst op = h) /\
                         SmartBuffer.in_bounds w Size (snd op)) ops ->
       exists m'',
         SmartBuffer.mutate_all w Size StaticThreshold ops m' = Ok tt m'' /\
         SmartBuffer.contents c m'' =
           Some (SmartBuffer.effects w Size (SmartBuffer.through c ops) bs) /\
         SmartBuffer.contents h m'' =
           Some (SmartBuffer.effects w Size (SmartBuffer.through h ops) bs)).
Proof.
  intros Hw Hsize Hwf Hc Hnew Hcap.
  pose proof (size_len_le_actual_len w Size Hw Hsize) as Hle.
  pose proof (contents_length _ _ _ _ _ _ Hwf Hc) as Hlen.
  destruct (ctor_copy_ok w Size StaticThreshold c h junk bs m Hwf Hc Hnew Hcap)
    as (m' & Hrun & Hwf' & Hcc & Hch).
  exists m'. split; [exact Hrun|]. split.
  - intros i Hi.
    destruct (lookup_lt_is_Some_2 bs i ltac:(lia)) as [b Hb].
    exists b. split; eapply subscript_ok; eassumption.
  - intros ops Hops.
    destruct (mutate_all_ok w Size StaticThreshold ops m' Hwf' Hle)
      as (m'' & Hrun' & _ & Hcont).
    + eapply Forall_impl; [exact Hops|]. intros [a mu] [[Ha|Ha] Hin];
        simpl in *; subst a; eauto.
    + exists m''. auto.
Qed.

Lemma copy_is_independent_witness :
  16 <= 64 /\ 0 <= 33 <= SizeT.SIZE_MAX 64 - 7 /\
  SmartBuffer.wf 64 33 32 heap_sample /\
  SmartBuffer.contents 1%positive heap_sample = Some (replicate 40 x07) /\
  objects heap_sample !! 3%positive = None /\
  (SmartBuffer.static 64 33 32 = false ->
   (SmartBuffer.actual_len 64 33 <= capacity heap_sample)%nat) /\
  exists m',
    SmartBuffer.ctor_copy 64 33 32 3%positive 1%positive (fun _ => xff)
      heap_sample = Ok tt m' /\
    (forall i, (i < SmartBuffer.size_len 33)%nat ->
       exists b,
         SmartBuffer.subscript 64 33 32 3%positive i m' = Ok b m' /\
         SmartBuffer.subscript 64 33 32 1%positive i m' = Ok b m') /\
    (forall ops,
       Forall (fun op => (fst op = 3%positive \/ fst op = 1%positive) /\
                         SmartBuffer.in_bounds 64 33 (snd op)) ops ->
       exists m'',
         SmartBuffer.mutate_all 64 33 32 ops m' = Ok tt m'' /\
         SmartBuffer.contents 3%positive m'' =
           Some (SmartBuffer.effects 64 33
                   (SmartBuffer.through 3%positive ops) (replicate 40 x07)) /\
         SmartBuffer.contents 1%positive m'' =
           Some (SmartBuffer.effects 64 33
                   (SmartBuffer.through 1%positive ops) (replicate 40 x07))).
Proof.
  assert (Hw : 16 <= 64) by lia.
  assert (Hs : 0 <= 33 <= SizeT.SIZE_MAX 64 - 7) by (vm_compute; split; discriminate).
  assert (Hcap : SmartBuffer.static 64 33 32 = false ->
                 (SmartBuffer.actual_len 64 33 <= capacity heap_sample)%nat).
  { intros _. vm_compute. lia. }
  split; [exact Hw|]. split; [exact Hs|]. split; [exact wf_heap_sample|].
  split; [reflexivity|]. split; [reflexivity|]. split; [exact Hcap|].
  apply (copy_is_independent 64 33 32 3%positive 1%positive (fun _ => xff)
           (replicate 40 x07) heap_sample Hw Hs wf_heap_sample);
    [reflexivity | reflexivity | exact Hcap].
Defined.

(** C6: move-constructing from a non-moved-from buffer [h] whose byte [i]
    is [v] yields a buffer [h'] with [h'[i] == v]; in the heap case the
    pointer alone changes hands: the heap and the counts of allocations and
    releases are unchanged, [h'] holds the pointer [h] held and [h] is left
    null. *)
Theorem move_transfers (w Size StaticThreshold : Z) (h' h : address)
    (junk : nat -> byte) (bs : list byte) (i : nat) (v : byte) (m : memory) :
  SmartBuffer.wf w Size StaticThreshold m ->
  SmartBuffer.contents h m = Some bs ->
  bs !! i = Some v ->
  objects m !! h' = None ->
  exists m',
    SmartBuffer.ctor_move w Size StaticThreshold h' h junk m = Ok tt m' /\
    SmartBuffer.subscript w Size StaticThreshold h' i m' = Ok v m' /\
    SmartBuffer.contents h' m' = Some bs /\
    (SmartBuffer.static w Size StaticThreshold = false ->
     heap m' = heap m /\
     capacity m' = capacity m /\
     allocations m' = allocations m /\
     releases m' = releases m /\
     objects m' !! h' = objects m !! h /\
     objects m' !! h = Some (DynamicBuffer None)).
Proof.
  intros Hwf Hc Hv Hnew.
  destruct (contents_Some_inv _ _ _ Hc) as [Hs|(l & Ho & Hh)].
  - destruct (SmartBuffer.wf_static _ _ _ _ Hwf h bs Hs) as [Hst _].
    eexists. split; [apply ctor_move_static; eassumption|].
    split; [|split].
    + eapply subscript_static; [exact Hst | apply lookup_insert_eq | exact Hv].
    + unfold SmartBuffer.contents. simpl. rewrite lookup_insert_eq. reflexivity.
    + congruence.
  - pose proof (SmartBuffer.wf_dynamic _ _ _ _ Hwf h _ Ho) as Hst.
    assert (Hne : h' <> h) by congruence.
    eexists. split; [apply ctor_move_dynamic; eassumption|].
    split; [|split].
    + eapply subscript_dynamic;
        [exact Hst | apply lookup_insert_eq | exact Hh | exact Hv].
    + unfold SmartBuffer.contents. simpl. rewrite lookup_insert_eq. exact Hh.
    + intros _. simpl. repeat split.
      * rewrite lookup_insert_eq. symmetry. exact Ho.
      * rewrite lookup_insert_ne by assumption. apply lookup_insert_eq.
Qed.

Lemma move_transfers_witness :
  SmartBuffer.wf 64 33 32 heap_sample /\
  SmartBuffer.contents 1%positive heap_sample = Some (replicate 40 x07) /\
  replicate 40 x07 !! 9%nat = Some x07 /\
  objects heap_sample !! 3%positive = None /\
  exists m',
    SmartBuffer.ctor_move 64 33 32 3%positive 1%positive (fun _ => xff)
      heap_sample = Ok tt m' /\
    SmartBuffer.subscript 64 33 32 3%positive 9 m' = Ok x07 m' /\
    SmartBuffer.contents 3%positive m' = Some (replicate 40 x07) /\
    (SmartBuffer.static 64 33 32 = false ->
     heap m' = heap heap_sample /\
     capacity m' = capacity heap_sample /\
     allocations m' = allocations heap_sample /\
     releases m' = releases heap_sample /\
     objects m' !! 3%positive = objects heap_sample !! 1%positive /\
     objects m' !! 1%positive = Some (DynamicBuffer None)).
Proof.
  split; [exact wf_heap_sample|]. split; [reflexivity|].
  split; [reflexivity|]. split; [reflexivity|].
  apply (move_transfers 64 33 32 3%positive 1%positive (fun _ => xff)
           (replicate 40 x07) 9 x07 heap_sample wf_heap_sample);
    reflexivity.
Defined.

(** C7: copy-assigning and move-assigning a buffer to itself are no-ops:
    the call returns in the memory it was made in, so every byte of the
    buffer is unchanged, the handle holds the region it held, and nothing is
    released. *)
Theorem self_assignment_is_noop (w Size StaticThreshold : Z) (h : address)
    (m : memory) :
  (exists m',
     SmartBuffer.copy_assign w Size StaticThreshold h h m = Ok tt m' /\
     m' = m /\
     SmartBuffer.contents h m' = SmartBuffer.contents h m /\
     objects m' !! h = objects m !! h /\
     heap m' = heap m /\ releases m' = releases m) /\
  (exists m',
     SmartBuffer.move_assign w Size StaticThreshold h h m = Ok tt m' /\
     m' = m /\
     SmartBuffer.contents h m' = SmartBuffer.contents h m /\
     objects m' !! h = objects m !! h /\
     heap m' = heap m /\ releases m' = releases m).
Proof.
  split; exists m;
    (split; [apply copy_assign_self || apply move_assign_self|]);
    repeat split; reflexivity.
Qed.

(** One write: it returns, keeps the memory well formed, has its [effect]
    on the bytes of its own handle and none on any other handle. *)
Lemma mutate_contents (w Size StaticThreshold : Z) (this : address)
    (mu : SmartBuffer.mutation) (bs : list byte) (m : memory) :
  SmartBuffer.wf w Size StaticThreshold m ->
  SmartBuffer.contents this m = Some bs ->
  (SmartBuffer.size_len Size <= SmartBuffer.actual_len w Size)%nat ->
  SmartBuffer.in_bounds w Size mu ->
  exists m',
    SmartBuffer.mutate w Size StaticThreshold this mu m = Ok tt m' /\
    SmartBuffer.wf w Size StaticThreshold m' /\
    SmartBuffer.contents this m' = Some (SmartBuffer.effect w Size mu bs) /\
    forall other, other <> this ->
      SmartBuffer.contents other m' = SmartBuffer.contents other m.
Proof.
  intros Hwf Hc Hle Hin.
  pose proof (contents_length _ _ _ _ _ _ Hwf Hc) as Hlen.
  exists (set_region (SmartBuffer.place this m) (SmartBuffer.effect w Size mu bs) m).
  split; [apply mutate_ok; assumption|].
  split; [eapply wf_set_region; eauto using effect_length|].
  split; [eapply contents_set_region_same; eassumption|].
  intros other Hne. eapply contents_set_region_other; eassumption.
Qed.

(** C8 fails as stated: on a [SmartBuffer<SIZE_MAX>], in the memory its
    own default constructor builds, [fill] and [clear] write [size() > 0]
    bytes into a region of 0 bytes: they are undefined behaviour and write
    no logical byte. *)
Lemma fill_undefined_at_size_max :
  let Size := SizeT.SIZE_MAX 64 in
  SmartBuffer.ctor_default 64 Size 32 1%positive (fun _ => xff)
    (empty_memory 0) = Ok tt size_max_sample /\
  SmartBuffer.wf 64 Size 32 size_max_sample /\
  SmartBuffer.contents 1%positive size_max_sample = Some [] /\
  SmartBuffer.fill 64 Size 32 1%positive xff size_max_sample = Undefined /\
  SmartBuffer.clear 64 Size 32 1%positive size_max_sample = Undefined /\
  ~ (exists m1,
       SmartBuffer.fill 64 Size 32 1%positive xff size_max_sample
         = Ok tt m1 /\
       SmartBuffer.contents 1%positive m1 =
         Some (replicate (SmartBuffer.size_len Size) xff)).
Proof.
  cbv zeta.
  assert (Hst : SmartBuffer.static 64 (SizeT.SIZE_MAX 64) 32 = true)
    by reflexivity.
  assert (Hn : SmartBuffer.actual_len 64 (SizeT.SIZE_MAX 64) = 0%nat)
    by reflexivity.
  assert (Hfill : forall v,
            SmartBuffer.fill 64 (SizeT.SIZE_MAX 64) 32 1%positive v
              size_max_sample = Undefined).
  { intros v. pose proof size_len_size_max_pos as Hpos.
    unfold SmartBuffer.fill, SmartBuffer.data. rewrite Hst.
    destruct (SmartBuffer.size_len (SizeT.SIZE_MAX 64)) as [|k]; [lia|].
    reflexivity. }
  split; [|split; [exact wf_size_max_sample|split; [reflexivity|]]];
    [|split; [apply Hfill|split; [apply Hfill|]]].
  - rewrite (ctor_default_static 64 (SizeT.SIZE_MAX 64) 32 1%positive
               (fun _ => xff) (empty_memory 0) Hst eq_refl).
    rewrite Hn. reflexivity.
  - intros (m1 & Hrun & _). rewrite Hfill in Hrun. discriminate.
Qed.

(** C8, amended: for a requested size with [Size <= SIZE_MAX - 7], so that
    the logical bytes lie in the region, [fill(v)] writes [v] to the
    [requested_size] logical bytes and leaves the padding bytes as they
    were; [clear()] is [fill(0)], so after [fill(v)] it puts all logical
    bytes back to 0, the padding still as it was; [fill_all(v)] and
    [clear_all()] write all [actual_size] bytes. *)
Theorem fill_and_clear (w Size StaticThreshold : Z) (this : address)
    (v : byte) (bs : list byte) (m : memory) :
  16 <= w -> 0 <= Size <= SizeT.SIZE_MAX w - 7 ->
  SmartBuffer.wf w Size StaticThreshold m ->
  SmartBuffer.contents this m = Some bs ->
  let logical := SmartBuffer.size_len Size in
  let padding := drop logical bs in
  length padding = (SmartBuffer.actual_len w Size - logical)%nat /\
  (exists m1,
     SmartBuffer.fill w Size StaticThreshold this v m = Ok tt m1 /\
     SmartBuffer.contents this m1 = Some (replicate logical v ++ padding) /\
     exists m2,
       SmartBuffer.clear w Size StaticThreshold this m1 = Ok tt m2 /\
       SmartBuffer.contents this m2 = Some (replicate logical x00 ++ padding)) /\
  SmartBuffer.clear w Size StaticThreshold this m =
    SmartBuffer.fill w Size StaticThreshold this x00 m /\
  (exists m1,
     SmartBuffer.fill_all w Size StaticThreshold this v m = Ok tt m1 /\
     SmartBuffer.contents this m1 =
       Some (replicate (SmartBuffer.actual_len w Size) v)) /\
  (exists m1,
     SmartBuffer.clear_all w Size StaticThreshold this m = Ok tt m1 /\
     SmartBuffer.contents this m1 =
       Some (replicate (SmartBuffer.actual_len w Size) x00)).
Proof.
  intros Hw Hsize Hwf Hc logical padding.
  pose proof (size_len_le_actual_len w Size Hw Hsize) as Hle.
  pose proof (contents_length _ _ _ _ _ _ Hwf Hc) as Hlen.
  assert (Hall : forall x, replicate (SmartBuffer.actual_len w Size) x ++
                   drop (SmartBuffer.actual_len w Size) bs
                 = replicate (SmartBuffer.actual_len w Size) x).
  { intros x. rewrite drop_ge by lia. apply app_nil_r. }
  split; [|split; [|split; [|split]]].
  - unfold padding. rewrite length_drop. lia.
  - destruct (mutate_contents w Size StaticThreshold this
                (SmartBuffer.Fill v) bs m Hwf Hc Hle I)
      as (m1 & Hrun1 & Hwf1 & Hc1 & _).
    exists m1. split; [exact Hrun1|]. split; [exact Hc1|].
    destruct (mutate_contents w Size StaticThreshold this
                SmartBuffer.Clear _ m1 Hwf1 Hc1 Hle I)
      as (m2 & Hrun2 & _ & Hc2 & _).
    exists m2. split; [exact Hrun2|].
    rewrite Hc2. simpl. f_equal. f_equal.
    apply drop_app_length'. rewrite length_replicate. reflexivity.
  - reflexivity.
  - destruct (mutate_contents w Size StaticThreshold this
                (SmartBuffer.FillAll v) bs m Hwf Hc Hle I)
      as (m1 & Hrun1 & _ & Hc1 & _).
    exists m1. split; [exact Hrun1|]. rewrite Hc1. simpl. rewrite Hall.
    reflexivity.
  - destruct (mutate_contents w Size StaticThreshold this
                SmartBuffer.ClearAll bs m Hwf Hc Hle I)
      as (m1 & Hrun1 & _ & Hc1 & _).
    exists m1. split; [exact Hrun1|]. rewrite Hc1. simpl. rewrite Hall.
    reflexivity.
Qed.

Lemma fill_and_clear_witness :
  16 <= 64 /\ 0 <= 33 <= SizeT.SIZE_MAX 64 - 7 /\
  SmartBuffer.wf 64 33 32 heap_sample /\
  SmartBuffer.contents 1%positive heap_sample = Some (replicate 40 x07) /\
  exists m1,
    SmartBuffer.fill 64 33 32 1%positive xff heap_sample = Ok tt m1 /\
    SmartBuffer.contents 1%positive m1 =
      Some (replicate 33 xff ++ replicate 7 x07).
Proof.
  assert (Hw : 16 <= 64) by lia.
  assert (Hs : 0 <= 33 <= SizeT.SIZE_MAX 64 - 7) by (vm_compute; split; discriminate).
  split; [exact Hw|]. split; [exact Hs|]. split; [exact wf_heap_sample|].
  split; [reflexivity|].
  destruct (fill_and_clear 64 33 32 1%positive xff (replicate 40 x07)
              heap_sample Hw Hs wf_heap_sample eq_refl)
    as (_ & (m1 & Hrun & Hc & _) & _).
  exists m1. split; [exact Hrun | exact Hc].
Defined.

(** C9: copy-assignment onto a distinct target in the heap case allocates
    exactly when the target holds no region, and copies all [actual_size]
    bytes of the source; afterwards the memory is well formed again (the
    target owns one array of [actual_size] bytes, no array is without
    owner), target and source hold the same bytes, nothing was released, and
    a target that held a region still holds that one. *)
Theorem copy_assign_heap (w Size StaticThreshold : Z) (t s : address)
    (pt : option address) (bs : list byte) (m : memory) :
  SmartBuffer.wf w Size StaticThreshold m ->
  t <> s ->
  objects m !! t = Some (DynamicBuffer pt) ->
  SmartBuffer.contents s m = Some bs ->
  (pt = None -> (SmartBuffer.actual_len w Size <= capacity m)%nat) ->
  exists m',
    SmartBuffer.copy_assign w Size StaticThreshold t s m = Ok tt m' /\
    SmartBuffer.wf w Size StaticThreshold m' /\
    SmartBuffer.contents t m' = Some bs /\
    SmartBuffer.contents s m' = Some bs /\
    length bs = SmartBuffer.actual_len w Size /\
    releases m' = releases m /\
    match pt with
    | Some l =>
        allocations m' = allocations m /\
        objects m' !! t = Some (DynamicBuffer (Some l))
    | None =>
        allocations m' = S (allocations m) /\
        exists l, heap m !! l = None /\
                  objects m' !! t = Some (DynamicBuffer (Some l))
    end.
Proof.
  intros Hwf Hne Ht Hc Hcap.
  pose proof (SmartBuffer.wf_dynamic _ _ _ _ Hwf t _ Ht) as Hst.
  pose proof (contents_length _ _ _ _ _ _ Hwf Hc) as Hlen.
  destruct (contents_Some_inv _ _ _ Hc) as [Hs|(ls & Ho & Hh)].
  { destruct (SmartBuffer.wf_static _ _ _ _ Hwf s bs Hs). congruence. }
  destruct pt as [lt|].
  - destruct (SmartBuffer.wf_region _ _ _ _ Hwf t lt Ht) as (d & Hd & Hld).
    assert (Hl : ls <> lt).
    { intros ->. apply Hne. symmetry.
      exact (SmartBuffer.wf_unique _ _ _ _ Hwf s t lt Ho Ht). }
    assert (Hct : SmartBuffer.contents t m = Some d).
    { unfold SmartBuffer.contents. rewrite Ht. exact Hd. }
    assert (Hplace : SmartBuffer.place t m = HeapData lt).
    { unfold SmartBuffer.place. rewrite Ht. reflexivity. }
    exists (set_region (SmartBuffer.place t m) bs m).
    split; [|split; [|split; [|split; [|split; [|split]]]]].
    + rewrite Hplace. simpl.
      apply (copy_assign_reuse w Size StaticThreshold t s lt ls bs d); assumption.
    + eapply wf_set_region; eassumption.
    + eapply contents_set_region_same; eassumption.
    + rewrite (contents_set_region_other w Size StaticThreshold t s d bs m)
        by (assumption || congruence). exact Hc.
    + exact Hlen.
    + rewrite Hplace. reflexivity.
    + rewrite Hplace. simpl. auto.
  - pose proof (fresh_heap m) as Hl.
    assert (Hll : fresh (dom (heap m)) <> ls) by congruence.
    eexists. split; [eapply copy_assign_fresh; eauto|]. cbv zeta.
    split; [|split; [|split; [|split; [|split; [|split]]]]].
    + apply wf_adopt; try assumption.
      intros k Hk. unfold SmartBuffer.owns in Hk. congruence.
    + unfold SmartBuffer.contents. simpl. rewrite !lookup_insert_eq. reflexivity.
    + unfold SmartBuffer.contents. simpl.
      rewrite lookup_insert_ne, Ho by assumption.
      rewrite lookup_insert_ne by assumption. exact Hh.
    + exact Hlen.
    + reflexivity.
    + reflexivity.
    + exists (fresh (dom (heap m))). split; [exact Hl|]. simpl.
      apply lookup_insert_eq.
Qed.

Lemma copy_assign_heap_witness :
  SmartBuffer.wf 64 33 32 heap_sample /\
  2%positive <> 1%positive /\
  objects heap_sample !! 2%positive = Some (DynamicBuffer None) /\
  SmartBuffer.contents 1%positive heap_sample = Some (replicate 40 x07) /\
  (@None address = None ->
   (SmartBuffer.actual_len 64 33 <= capacity heap_sample)%nat) /\
  exists m',
    SmartBuffer.copy_assign 64 33 32 2%positive 1%positive heap_sample
      = Ok tt m' /\
    SmartBuffer.wf 64 33 32 m' /\
    SmartBuffer.contents 2%positive m' = Some (replicate 40 x07) /\
    SmartBuffer.contents 1%positive m' = Some (replicate 40 x07) /\
    allocations m' = S (allocations heap_sample).
Proof.
  assert (Hne : 2%positive <> 1%positive) by discriminate.
  assert (Hcap : @None address = None ->
                 (SmartBuffer.actual_len 64 33 <= capacity heap_sample)%nat).
  { intros _. vm_compute. lia. }
  split; [exact wf_heap_sample|]. split; [exact Hne|].
  split; [reflexivity|]. split; [reflexivity|]. split; [exact Hcap|].
  destruct (copy_assign_heap 64 33 32 2%positive 1%positive None
              (replicate 40 x07) heap_sample wf_heap_sample Hne
              eq_refl eq_refl Hcap)
    as (m' & Hrun & Hwf & Hct & Hcs & _ & _ & Hal & _).
  exists m'. auto.
Defined.

(** C10: for inline buffers, move construction and move assignment leave
    the bytes of the moved-from source as they were: the source still reads
    the same value at every index of the region, and the target reads it
    too. *)
Theorem static_move_keeps_source (w Size StaticThreshold : Z)
    (fresh_dst dst src : address) (junk : nat -> byte)
    (elems old : list byte) (m : memory) :
  SmartBuffer.static w Size StaticThreshold = true ->
  objects m !! src = Some (StaticBuffer elems) ->
  objects m !! fresh_dst = None ->
  objects m !! dst = Some (StaticBuffer old) ->
  (exists m',
     SmartBuffer.ctor_move w Size StaticThreshold fresh_dst src junk m
       = Ok tt m' /\
     SmartBuffer.contents src m' = Some elems /\
     forall i b, elems !! i = Some b ->
       SmartBuffer.subscript w Size StaticThreshold src i m' = Ok b m' /\
       SmartBuffer.subscript w Size StaticThreshold fresh_dst i m' = Ok b m') /\
  (exists m',
     SmartBuffer.move_assign w Size StaticThreshold dst src m = Ok tt m' /\
     SmartBuffer.contents src m' = Some elems /\
     forall i b, elems !! i = Some b ->
       SmartBuffer.subscript w Size StaticThreshold src i m' = Ok b m' /\
       SmartBuffer.subscript w Size StaticThreshold dst i m' = Ok b m').
Proof.
  intros Hst Hs Hnew Hd. split.
  - assert (Hne : fresh_dst <> src) by congruence.
    assert (Hs' : <[fresh_dst := StaticBuffer elems]> (objects m) !! src
                  = Some (StaticBuffer elems))
      by (rewrite lookup_insert_ne by assumption; exact Hs).
    eexists. split; [apply ctor_move_static; eassumption|].
    split.
    + unfold SmartBuffer.contents. simpl. rewrite Hs'. reflexivity.
    + intros i b Hb. split.
      * eapply subscript_static; [exact Hst | exact Hs' | exact Hb].
      * eapply subscript_static; [exact Hst | apply lookup_insert_eq | exact Hb].
  - destruct (decide (dst = src)) as [->|Hne].
    + exists m. split; [apply move_assign_self|].
      split; [apply contents_static; exact Hs|].
      intros i b Hb.
      split; (eapply subscript_static; [exact Hst | exact Hs | exact Hb]).
    + assert (Hs' : <[dst := StaticBuffer elems]> (objects m) !! src
                    = Some (StaticBuffer elems))
        by (rewrite lookup_insert_ne by assumption; exact Hs).
      eexists. split; [eapply move_assign_static; eassumption|].
      split.
      * unfold SmartBuffer.contents. simpl. rewrite Hs'. reflexivity.
      * intros i b Hb. split.
        -- eapply subscript_static; [exact Hst | exact Hs' | exact Hb].
        -- eapply subscript_static;
             [exact Hst | apply lookup_insert_eq | exact Hb].
Qed.

Lemma static_move_keeps_source_witness :
  SmartBuffer.static 64 13 32 = true /\
  objects static_sample !! 1%positive = Some (StaticBuffer (replicate 16 x07)) /\
  objects static_sample !! 3%positive = None /\
  objects static_sample !! 2%positive = Some (StaticBuffer (replicate 16 x00)) /\
  (exists m',
     SmartBuffer.ctor_move 64 13 32 3%positive 1%positive (fun _ => xff)
       static_sample = Ok tt m' /\
     SmartBuffer.contents 1%positive m' = Some (replicate 16 x07)) /\
  (exists m',
     SmartBuffer.move_assign 64 13 32 2%positive 1%positive static_sample
       = Ok tt m' /\
     SmartBuffer.contents 1%positive m' = Some (replicate 16 x07)).
Proof.
  split; [reflexivity|]. split; [reflexivity|].
  split; [reflexivity|]. split; [reflexivity|].
  destruct (static_move_keeps_source 64 13 32 3%positive 2%positive 1%positive
              (fun _ => xff) (replicate 16 x07) (replicate 16 x00)
              static_sample eq_refl eq_refl eq_refl eq_refl)
    as [(m1 & Hrun1 & Hc1 & _) (m2 & Hrun2 & Hc2 & _)].
  split; [exists m1 | exists m2]; auto.
Defined.

(** ** Further properties of the size arithmetic *)

Lemma modulus_multiple_of_8 (w : Z) :
  16 <= w -> SizeT.modulus w = 8 * 2 ^ (w - 3) /\ 0 < 2 ^ (w - 3).
Proof.
  intros Hw. split.
  - unfold SizeT.modulus. change 8 with (2 ^ 3).
    rewrite <- Z.pow_add_r by lia. f_equal. lia.
  - apply Z.pow_pos_nonneg; lia.
Qed.

(** A multiple of 8 in range is at most [SIZE_MAX - 7]. *)
Lemma multiple_of_8_no_wrap (w n : Z) :
  16 <= w -> SizeT.in_range w n -> n mod 8 = 0 ->
  0 <= n <= SizeT.SIZE_MAX w - 7.
Proof.
  intros Hw [Hn0 Hn] Hmod.
  destruct (modulus_multiple_of_8 w Hw) as [Hsplit Hpos].
  unfold SizeT.SIZE_MAX. rewrite Hsplit in *.
  pose proof (Z.div_mod n 8 ltac:(lia)). lia.
Qed.

(** The strategy as a bound on the requested size: the threshold counts
    rounded down to a multiple of 8. *)
Lemma use_static_iff (w s T : Z) :
  16 <= w -> 0 <= s <= SizeT.SIZE_MAX w - 7 ->
  use_static w s T = true <-> s <= 8 * (T / 8).
Proof.
  intros Hw Hs. unfold use_static, ACTUAL_SIZE, STATIC_THRESHOLD.
  rewrite Z.leb_le, (round_up_to_8_no_wrap w Hw s Hs).
  pose proof (Z.div_mod (s + 7) 8 ltac:(lia)).
  pose proof (Z.mod_pos_bound (s + 7) 8 ltac:(lia)).
  pose proof (Z.div_mod T 8 ltac:(lia)).
  pose proof (Z.mod_pos_bound T 8 ltac:(lia)).
  lia.
Qed.

(** A multiple of 8 is its own rounding. *)
Lemma multiple_of_8_is_rounded (w k : Z) :
  16 <= w -> SizeT.in_range w k -> k mod 8 = 0 -> round_up_to_8 w k = k.
Proof.
  intros Hw Hk Hmod.
  pose proof (multiple_of_8_no_wrap w k Hw Hk Hmod) as Hnw.
  rewrite (round_up_to_8_no_wrap w Hw k Hnw).
  pose proof (Z.div_mod k 8 ltac:(lia)).
  pose proof (Z.div_mod (k + 7) 8 ltac:(lia)).
  pose proof (Z.mod_pos_bound (k + 7) 8 ltac:(lia)). lia.
Qed.

(** X1: [round_up_to_8] leaves a size unchanged exactly when the size is a
    multiple of 8 (such a buffer has no padding), and rounding twice is
    rounding once. *)
Theorem round_up_to_8_fixed_points (w n : Z) :
  16 <= w ->
  SizeT.in_range w n ->
  (round_up_to_8 w n = n <-> n mod 8 = 0) /\
  round_up_to_8 w (round_up_to_8 w n) = round_up_to_8 w n.
Proof.
  intros Hw Hn.
  pose proof (fun k => multiple_of_8_is_rounded w k Hw) as Hfix.
  assert (Hmul : forall k, round_up_to_8 w k mod 8 = 0).
  { intros k. rewrite (round_up_to_8_div w Hw), Z.mul_comm.
    apply Z.mod_mul. lia. }
  split.
  - split; [intros <-; apply Hmul | apply Hfix; assumption].
  - apply Hfix; [apply (round_up_to_8_range w Hw) | apply Hmul].
Qed.

Lemma round_up_to_8_fixed_points_witness :
  16 <= 64 /\ SizeT.in_range 64 24 /\
  (round_up_to_8 64 24 = 24 <-> 24 mod 8 = 0) /\
  round_up_to_8 64 (round_up_to_8 64 24) = round_up_to_8 64 24.
Proof.
  split; [lia|]. split; [split; [lia | reflexivity]|].
  apply (round_up_to_8_fixed_points 64 24); [lia | split; [lia | reflexivity]].
Defined.

(** X2: without wrap-around [round_up_to_8] is monotone, so the inline
    strategy is kept when the requested size shrinks and when the threshold
    grows. *)
Theorem strategy_monotone (w a b T T' : Z) :
  16 <= w ->
  0 <= a <= b -> b <= SizeT.SIZE_MAX w - 7 -> T <= T' ->
  round_up_to_8 w a <= round_up_to_8 w b /\
  (use_static w b T = true -> use_static w a T = true) /\
  (use_static w a T = true -> use_static w a T' = true).
Proof.
  intros Hw Hab Hb HT.
  assert (Hmono : round_up_to_8 w a <= round_up_to_8 w b).
  { rewrite !(round_up_to_8_no_wrap w Hw) by lia.
    pose proof (Z.div_le_mono (a + 7) (b + 7) 8 ltac:(lia) ltac:(lia)). lia. }
  unfold use_static, ACTUAL_SIZE, STATIC_THRESHOLD. rewrite !Z.leb_le.
  split; [exact Hmono|]. split; lia.
Qed.

Lemma strategy_monotone_witness :
  16 <= 64 /\ 0 <= 9 <= 30 /\ 30 <= SizeT.SIZE_MAX 64 - 7 /\ 32 <= 64 /\
  round_up_to_8 64 9 <= round_up_to_8 64 30 /\
  (use_static 64 30 32 = true -> use_static 64 9 32 = true) /\
  (use_static 64 9 32 = true -> use_static 64 9 64 = true).
Proof.
  assert (H : 30 <= SizeT.SIZE_MAX 64 - 7) by (vm_compute; discriminate).
  split; [lia|]. split; [lia|]. split; [exact H|]. split; [lia|].
  apply (strategy_monotone 64 9 30 32 64); [lia | lia | exact H | lia].
Defined.

(** X3: for a size whose rounding does not wrap, the buffer is inline
    exactly when the requested size is at most the threshold rounded down to
    a multiple of 8; a threshold that is a multiple of 8 is therefore a
    bound on the requested size itself. *)
Theorem effective_threshold (w s T : Z) :
  16 <= w ->
  0 <= s <= SizeT.SIZE_MAX w - 7 ->
  (SmartBuffer.is_static w s T = true <-> s <= 8 * (T / 8)) /\
  (T mod 8 = 0 -> (SmartBuffer.is_static w s T = true <-> s <= T)).
Proof.
  intros Hw Hs. pose proof (use_static_iff w s T Hw Hs) as Hiff.
  unfold SmartBuffer.is_static, SmartBuffer.static. split; [exact Hiff|].
  intros Hmod. rewrite Hiff.
  pose proof (Z.div_mod T 8 ltac:(lia)). lia.
Qed.

Lemma effective_threshold_witness :
  16 <= 64 /\ 0 <= 17 <= SizeT.SIZE_MAX 64 - 7 /\
  (SmartBuffer.is_static 64 17 20 = true <-> 17 <= 8 * (20 / 8)) /\
  (20 mod 8 = 0 -> (SmartBuffer.is_static 64 17 20 = true <-> 17 <= 20)).
Proof.
  assert (H : 0 <= 17 <= SizeT.SIZE_MAX 64 - 7)
    by (vm_compute; split; discriminate).
  split; [lia|]. split; [exact H|].
  apply (effective_threshold 64 17 20); [lia | exact H].
Defined.

(** X4: the first version of the header, which compares the requested size
    with 32, and the current one, which compares the rounded size with the
    default threshold, select the same strategy for every size whose
    rounding does not wrap. *)
Theorem legacy_strategy_agrees (w s : Z) :
  16 <= w ->
  0 <= s <= SizeT.SIZE_MAX w - 7 ->
  Legacy.use_static s = use_static w s default_threshold.
Proof.
  intros Hw Hs. pose proof (use_static_iff w s default_threshold Hw Hs) as Hiff.
  change (8 * (default_threshold / 8)) with 32 in Hiff.
  unfold Legacy.use_static, Legacy.STATIC_THRESHOLD.
  destruct (use_static w s default_threshold).
  - apply Z.leb_le. apply Hiff. reflexivity.
  - apply Z.leb_gt. destruct (Z_le_gt_dec s 32) as [Hle|Hgt]; [|lia].
    apply Hiff in Hle. discriminate.
Qed.

Lemma legacy_strategy_agrees_witness :
  16 <= 64 /\ 0 <= 33 <= SizeT.SIZE_MAX 64 - 7 /\
  Legacy.use_static 33 = use_static 64 33 default_threshold.
Proof.
  assert (H : 0 <= 33 <= SizeT.SIZE_MAX 64 - 7)
    by (vm_compute; split; discriminate).
  split; [lia|]. split; [exact H|].
  apply (legacy_strategy_agrees 64 33); [lia | exact H].
Defined.

(** ** Further properties of the access surface *)

Section access_facts.
Import SmartBuffer.
Variables (w Size StaticThreshold : Z).

Local Abbreviation static := (SmartBuffer.static w Size StaticThreshold).
Local Abbreviation actual_len := (SmartBuffer.actual_len w Size).
Local Abbreviation size_len := (SmartBuffer.size_len Size).
Local Abbreviation wf := (SmartBuffer.wf w Size StaticThreshold).
Local Abbreviation data := (SmartBuffer.data w Size StaticThreshold).
Local Abbreviation subscript := (SmartBuffer.subscript w Size StaticThreshold).
Local Abbreviation subscript_assign :=
  (SmartBuffer.subscript_assign w Size StaticThreshold).
Local Abbreviation fill := (SmartBuffer.fill w Size StaticThreshold).
Local Abbreviation fill_all := (SmartBuffer.fill_all w Size StaticThreshold).

Lemma place_set_region this bs bs' m :
  contents this m = Some bs ->
  place this (set_region (place this m) bs' m) = place this m.
Proof.
  intros H. destruct (contents_Some_inv _ _ _ H) as [Hs|(l & Ho & Hh)];
    unfold place; [rewrite Hs | rewrite Ho]; simpl.
  - rewrite lookup_insert_eq. reflexivity.
  - rewrite Ho. reflexivity.
Qed.

Lemma place_not_null this bs m :
  contents this m = Some bs -> place this m <> NullPtr.
Proof.
  intros H Hnull. pose proof (region_place _ _ _ H) as Hr.
  rewrite Hnull in Hr. discriminate.
Qed.

(** A handle of the heap strategy that holds no array. *)
Lemma data_null this m :
  wf m -> objects m !! this = Some (DynamicBuffer None) ->
  data this m = Ok NullPtr m.
Proof.
  intros Hwf Ho. unfold SmartBuffer.data.
  rewrite (wf_dynamic _ _ _ _ Hwf this _ Ho).
  unfold unique_ptr_get, bind, get_buffer. rewrite Ho. reflexivity.
Qed.

Lemma fill_n_null n v m : fill_n NullPtr (S n) v m = Undefined.
Proof. reflexivity. Qed.

Lemma copy_n_null n dst m : copy_n NullPtr (S n) dst m = Undefined.
Proof. reflexivity. Qed.

End access_facts.

(** X5: a byte written through the pointer [data()] returns (or through the
    conversion operator, which is the same pointer) is the byte
    [operator[]] reads at that index afterwards; the other indices read as
    before, the pointer of the handle is the same after the write, and the
    write is the one [operator[]] makes. *)
Theorem raw_write_read_by_subscript (w Size StaticThreshold : Z)
    (this : address) (bs : list byte) (i : nat) (v : byte) (m : memory) :
  SmartBuffer.wf w Size StaticThreshold m ->
  SmartBuffer.contents this m = Some bs ->
  (i < SmartBuffer.actual_len w Size)%nat ->
  exists p m1,
    SmartBuffer.data w Size StaticThreshold this m = Ok p m /\
    p <> NullPtr /\
    store p i v m = Ok tt m1 /\
    SmartBuffer.subscript_assign w Size StaticThreshold this i v m = Ok tt m1 /\
    SmartBuffer.data w Size StaticThreshold this m1 = Ok p m1 /\
    SmartBuffer.subscript w Size StaticThreshold this i m1 = Ok v m1 /\
    forall j b, j <> i -> bs !! j = Some b ->
      SmartBuffer.subscript w Size StaticThreshold this j m1 = Ok b m1.
Proof.
  intros Hwf Hc Hi.
  pose proof (contents_length _ _ _ _ _ _ Hwf Hc) as Hlen.
  pose proof (data_ok _ _ _ _ _ _ Hwf Hc) as Hd.
  pose proof (region_place _ _ _ Hc) as Hr.
  set (p := SmartBuffer.place this m) in *.
  set (m1 := set_region p (<[i := v]> bs) m).
  assert (Hst : store p i v m = Ok tt m1) by (apply store_ok; [assumption|lia]).
  assert (Hc1 : SmartBuffer.contents this m1 = Some (<[i := v]> bs))
    by (apply (contents_set_region_same this bs); assumption).
  assert (Hwf1 : SmartBuffer.wf w Size StaticThreshold m1).
  { apply (wf_set_region w Size StaticThreshold this bs); try assumption.
    rewrite length_insert. exact Hlen. }
  exists p, m1. split; [exact Hd|]. split; [eapply place_not_null; eassumption|].
  split; [exact Hst|]. split; [|split; [|split]].
  - unfold SmartBuffer.subscript_assign. rewrite (bind_Ok _ _ _ _ _ Hd).
    exact Hst.
  - rewrite (data_ok _ _ _ _ _ _ Hwf1 Hc1). f_equal.
    apply (place_set_region this bs). assumption.
  - eapply subscript_ok; [exact Hwf1 | exact Hc1 |].
    apply list_lookup_insert_eq. lia.
  - intros j b Hne Hb. eapply subscript_ok; [exact Hwf1 | exact Hc1 |].
    rewrite list_lookup_insert_ne by congruence. exact Hb.
Qed.

Lemma raw_write_read_by_subscript_witness :
  SmartBuffer.wf 64 33 32 heap_sample /\
  SmartBuffer.contents 1%positive heap_sample = Some (replicate 40 x07) /\
  (3 < SmartBuffer.actual_len 64 33)%nat /\
  exists p m1,
    SmartBuffer.data 64 33 32 1%positive heap_sample = Ok p heap_sample /\
    store p 3 xff heap_sample = Ok tt m1 /\
    SmartBuffer.subscript 64 33 32 1%positive 3 m1 = Ok xff m1.
Proof.
  assert (Hi : (3 < SmartBuffer.actual_len 64 33)%nat) by (vm_compute; lia).
  split; [exact wf_heap_sample|]. split; [reflexivity|]. split; [exact Hi|].
  destruct (raw_write_read_by_subscript 64 33 32 1%positive (replicate 40 x07)
              3 xff heap_sample wf_heap_sample eq_refl Hi)
    as (p & m1 & Hd & _ & Hst & _ & _ & Hsub & _).
  exists p, m1. auto.
Defined.

(** X6: [operator[]] is unchecked: on a non-moved-from handle every index
    below [actual_size], padding included, reads a byte and leaves the
    memory as it is, and every index from [actual_size] on is undefined
    behaviour, for reading and for writing. *)
Theorem subscript_bounds (w Size StaticThreshold : Z)
    (this : address) (bs : list byte) (m : memory) :
  SmartBuffer.wf w Size StaticThreshold m ->
  SmartBuffer.contents this m = Some bs ->
  (forall i, (i < SmartBuffer.actual_len w Size)%nat ->
     exists b, bs !! i = Some b /\
       SmartBuffer.subscript w Size StaticThreshold this i m = Ok b m) /\
  (forall i v, (SmartBuffer.actual_len w Size <= i)%nat ->
     SmartBuffer.subscript w Size StaticThreshold this i m = Undefined /\
     SmartBuffer.subscript_assign w Size StaticThreshold this i v m
       = Undefined).
Proof.
  intros Hwf Hc.
  pose proof (contents_length _ _ _ _ _ _ Hwf Hc) as Hlen.
  pose proof (data_ok _ _ _ _ _ _ Hwf Hc) as Hd.
  pose proof (region_place _ _ _ Hc) as Hr.
  split.
  - intros i Hi. destruct (lookup_lt_is_Some_2 bs i ltac:(lia)) as [b Hb].
    exists b. split; [exact Hb|]. eapply subscript_ok; eassumption.
  - intros i v Hi.
    unfold SmartBuffer.subscript, SmartBuffer.subscript_assign.
    rewrite !(bind_Ok _ _ _ _ _ Hd). unfold load, store. rewrite Hr.
    rewrite (lookup_ge_None_2 bs i) by lia.
    rewrite decide_False by lia. auto.
Qed.

Lemma subscript_bounds_witness :
  SmartBuffer.wf 64 33 32 heap_sample /\
  SmartBuffer.contents 1%positive heap_sample = Some (replicate 40 x07) /\
  SmartBuffer.subscript 64 33 32 1%positive 40 heap_sample = Undefined /\
  exists b, SmartBuffer.subscript 64 33 32 1%positive 39 heap_sample
            = Ok b heap_sample.
Proof.
  split; [exact wf_heap_sample|]. split; [reflexivity|].
  destruct (subscript_bounds 64 33 32 1%positive (replicate 40 x07)
              heap_sample wf_heap_sample eq_refl) as [Hin Hout].
  split.
  - apply (Hout 40%nat x00). vm_compute. lia.
  - destruct (Hin 39%nat) as (b & _ & Hb); [vm_compute; lia|].
    exists b. exact Hb.
Defined.

(** X7: a buffer whose requested size is a multiple of 8 has no padding:
    [actual_size()] is [size()], and [fill_all] and [clear_all] are [fill]
    and [clear]. *)
Theorem no_padding_when_multiple_of_8 (w Size StaticThreshold : Z) :
  16 <= w ->
  SizeT.in_range w Size ->
  Size mod 8 = 0 ->
  SmartBuffer.actual_size w Size = SmartBuffer.size Size /\
  forall this v m,
    SmartBuffer.fill_all w Size StaticThreshold this v m =
      SmartBuffer.fill w Size StaticThreshold this v m /\
    SmartBuffer.clear_all w Size StaticThreshold this m =
      SmartBuffer.clear w Size StaticThreshold this m.
Proof.
  intros Hw Hr Hmod.
  assert (E : ACTUAL_SIZE w Size = Size)
    by (apply (multiple_of_8_is_rounded w Size Hw Hr Hmod)).
  split; [exact E|]. intros this v m.
  unfold SmartBuffer.clear_all, SmartBuffer.clear, SmartBuffer.fill_all,
    SmartBuffer.fill, SmartBuffer.actual_len, SmartBuffer.size_len.
  rewrite E. split; reflexivity.
Qed.

Lemma no_padding_when_multiple_of_8_witness :
  16 <= 64 /\ SizeT.in_range 64 32 /\ 32 mod 8 = 0 /\
  SmartBuffer.actual_size 64 32 = SmartBuffer.size 32.
Proof.
  assert (Hr : SizeT.in_range 64 32) by (split; [lia | reflexivity]).
  split; [lia|]. split; [exact Hr|]. split; [reflexivity|].
  apply (no_padding_when_multiple_of_8 64 32 32 ltac:(lia) Hr eq_refl).
Defined.

(** X8: a [fill] makes what was written to the logical bytes before it
    irrelevant, and a [fill_all] what was written anywhere: after any
    in-bounds write [mu], [fill_all(v)] returns the memory it returns
    without [mu], and so does [fill(v)] when [mu] is a [fill], a [clear] or
    a write below [size()].  [Size + 7] must not wrap. *)
Theorem last_fill_wins (w Size StaticThreshold : Z) (this : address)
    (mu : SmartBuffer.mutation) (v : byte) (bs : list byte) (m : memory) :
  16 <= w -> 0 <= Size <= SizeT.SIZE_MAX w - 7 ->
  SmartBuffer.wf w Size StaticThreshold m ->
  SmartBuffer.contents this m = Some bs ->
  SmartBuffer.in_bounds w Size mu ->
  exists m1,
    SmartBuffer.mutate w Size StaticThreshold this mu m = Ok tt m1 /\
    SmartBuffer.fill_all w Size StaticThreshold this v m1 =
      SmartBuffer.fill_all w Size StaticThreshold this v m /\
    (match mu with
     | SmartBuffer.Write index _ => (index < SmartBuffer.size_len Size)%nat
     | SmartBuffer.Fill _ | SmartBuffer.Clear => True
     | _ => False
     end ->
     SmartBuffer.fill w Size StaticThreshold this v m1 =
       SmartBuffer.fill w Size StaticThreshold this v m).
Proof.
  intros Hw Hsize Hwf Hc Hin.
  pose proof (size_len_le_actual_len w Size Hw Hsize) as Hle.
  pose proof (contents_length _ _ _ _ _ _ Hwf Hc) as Hlen.
  pose proof (effect_length w Size mu bs Hlen Hle) as Hlen1.
  set (bs1 := SmartBuffer.effect w Size mu bs) in *.
  set (p := SmartBuffer.place this m).
  set (m1 := set_region p bs1 m).
  assert (Hrun : SmartBuffer.mutate w Size StaticThreshold this mu m = Ok tt m1)
    by (apply mutate_ok; assumption).
  assert (Hc1 : SmartBuffer.contents this m1 = Some bs1)
    by (apply (contents_set_region_same this bs); assumption).
  assert (Hwf1 : SmartBuffer.wf w Size StaticThreshold m1)
    by (apply (wf_set_region w Size StaticThreshold this bs); assumption).
  assert (Hp1 : SmartBuffer.place this m1 = p)
    by (apply (place_set_region this bs); assumption).
  assert (Hafter : forall mu',
            SmartBuffer.in_bounds w Size mu' ->
            SmartBuffer.effect w Size mu' bs1 = SmartBuffer.effect w Size mu' bs ->
            SmartBuffer.mutate w Size StaticThreshold this mu' m1 =
            SmartBuffer.mutate w Size StaticThreshold this mu' m).
  { intros mu' Hin' Heq.
    rewrite (mutate_ok w Size StaticThreshold this mu' bs1 m1) by assumption.
    rewrite (mutate_ok w Size StaticThreshold this mu' bs m) by assumption.
    rewrite Hp1, Heq. unfold m1. rewrite set_region_twice. reflexivity. }
  exists m1. split; [exact Hrun|]. split.
  - apply (Hafter (SmartBuffer.FillAll v) I). simpl.
    rewrite !drop_ge by lia. reflexivity.
  - intros Hlog. apply (Hafter (SmartBuffer.Fill v) I). simpl. f_equal.
    unfold bs1. destruct mu as [index x|x| |x| ]; simpl; try contradiction.
    + apply drop_insert_lt. exact Hlog.
    + apply drop_app_length'. rewrite length_replicate. reflexivity.
    + apply drop_app_length'. rewrite length_replicate. reflexivity.
Qed.

Lemma last_fill_wins_witness :
  16 <= 64 /\ 0 <= 33 <= SizeT.SIZE_MAX 64 - 7 /\
  SmartBuffer.wf 64 33 32 heap_sample /\
  SmartBuffer.contents 1%positive heap_sample = Some (replicate 40 x07) /\
  SmartBuffer.in_bounds 64 33 (SmartBuffer.Write 2 xff) /\
  exists m1,
    SmartBuffer.mutate 64 33 32 1%positive (SmartBuffer.Write 2 xff)
      heap_sample = Ok tt m1 /\
    SmartBuffer.fill_all 64 33 32 1%positive x01 m1 =
      SmartBuffer.fill_all 64 33 32 1%positive x01 heap_sample.
Proof.
  assert (Hs : 0 <= 33 <= SizeT.SIZE_MAX 64 - 7)
    by (vm_compute; split; discriminate).
  assert (Hin : SmartBuffer.in_bounds 64 33 (SmartBuffer.Write 2 xff))
    by (vm_compute; lia).
  split; [lia|]. split; [exact Hs|]. split; [exact wf_heap_sample|].
  split; [reflexivity|]. split; [exact Hin|].
  destruct (last_fill_wins 64 33 32 1%positive (SmartBuffer.Write 2 xff) x01
              (replicate 40 x07) heap_sample ltac:(lia) Hs wf_heap_sample
              eq_refl Hin) as (m1 & Hrun & Hall & _).
  exists m1. auto.
Defined.

(** ** Further facts on the lifecycle *)

Section lifecycle_facts.
Import SmartBuffer.
Variables (w Size StaticThreshold : Z).

Local Abbreviation static := (SmartBuffer.static w Size StaticThreshold).
Local Abbreviation actual_len := (SmartBuffer.actual_len w Size).
Local Abbreviation size_len := (SmartBuffer.size_len Size).
Local Abbreviation wf := (SmartBuffer.wf w Size StaticThreshold).

(** In the heap strategy the region is not empty. *)
Lemma heap_actual_len_pos :
  16 <= w -> 0 <= StaticThreshold -> static = false -> (0 < actual_len)%nat.
Proof.
  intros Hw HT Hst. unfold SmartBuffer.static, use_static, STATIC_THRESHOLD in Hst.
  apply Z.leb_gt in Hst. unfold SmartBuffer.actual_len. lia.
Qed.

Lemma heap_size_len_pos :
  16 <= w -> SizeT.in_range w Size -> 0 <= StaticThreshold ->
  static = false -> (0 < size_len)%nat.
Proof.
  intros Hw [Hs0 Hs] HT Hst.
  unfold SmartBuffer.static, use_static, STATIC_THRESHOLD, ACTUAL_SIZE in Hst.
  apply Z.leb_gt in Hst. unfold SmartBuffer.size_len.
  destruct (Z.eq_dec Size 0) as [->|Hne]; [|lia].
  rewrite round_up_to_8_no_wrap in Hst.
  - change (8 * ((0 + 7) / 8)) with 0 in Hst. lia.
  - assumption.
  - pose proof (modulus_ge w Hw). unfold SizeT.SIZE_MAX. lia.
Qed.

(** An object that owns nothing goes away. *)
Lemma wf_remove this m :
  wf m -> (forall k, ~ owns m this k) ->
  wf (with_objects (delete this (objects m)) m).
Proof.
  intros [H1 H2 H3 H4 H5] Hno.
  split; unfold owns in *; simpl.
  - intros a e. rewrite lookup_delete. case_decide; [discriminate|apply H1].
  - intros a p. rewrite lookup_delete. case_decide; [discriminate|apply H2].
  - intros a k. rewrite lookup_delete. case_decide; [discriminate|apply H3].
  - intros a b k. rewrite !lookup_delete.
    repeat case_decide; try discriminate. apply H4.
  - intros k Hk. destruct (H5 k Hk) as (a & Ha). exists a.
    rewrite lookup_delete. case_decide; [|exact Ha].
    subst a. exfalso. exact (Hno k Ha).
Qed.

(** A handle gives its array back to the allocator. *)
Lemma wf_drop this l m c al r :
  wf m -> owns m this l ->
  wf (Memory (<[this := DynamicBuffer None]> (objects m))
             (delete l (heap m)) c al r).
Proof.
  intros [H1 H2 H3 H4 H5] Ho.
  split; unfold owns in *; simpl.
  - intros a e. rewrite lookup_insert. case_decide; [discriminate|apply H1].
  - intros a p. rewrite lookup_insert. case_decide; [|apply H2].
    intros _. exact (H2 this _ Ho).
  - intros a k. rewrite lookup_insert. case_decide; [discriminate|].
    intros Ha. rewrite lookup_delete_ne; [apply (H3 a k Ha)|].
    intros <-. apply H. exact (H4 this a l Ho Ha).
  - intros a b k. rewrite !lookup_insert.
    repeat case_decide; try discriminate. apply H4.
  - intros k. rewrite lookup_delete. case_decide; [intros [? ?]; discriminate|].
    intros Hk. destruct (H5 k Hk) as (a & Ha). exists a.
    rewrite lookup_insert. case_decide; [|exact Ha].
    subst a. congruence.
Qed.

(** A null handle takes over what another handle holds. *)
Lemma wf_hand_over this other p m :
  wf m -> this <> other ->
  objects m !! this = Some (DynamicBuffer None) ->
  objects m !! other = Some (DynamicBuffer p) ->
  wf (with_objects (<[this := DynamicBuffer p]>
                      (<[other := DynamicBuffer None]> (objects m))) m).
Proof.
  intros [H1 H2 H3 H4 H5] Hne Ht Ho. unfold owns in *.
  assert (Hown : forall a k,
            <[this := DynamicBuffer p]>
              (<[other := DynamicBuffer None]> (objects m)) !! a
              = Some (DynamicBuffer (Some k)) ->
            (a = this /\ objects m !! other = Some (DynamicBuffer (Some k))) \/
            (a <> this /\ a <> other /\
             objects m !! a = Some (DynamicBuffer (Some k)))).
  { intros a k. rewrite !lookup_insert.
    destruct (decide (this = a)) as [<-|Hta].
    - intros [= ->]. left. auto.
    - destruct (decide (other = a)) as [<-|Hoa]; [discriminate|].
      intros E. right. auto. }
  split; unfold owns; simpl.
  - intros a e. rewrite !lookup_insert.
    repeat case_decide; try discriminate. apply H1.
  - intros a q _. exact (H2 this _ Ht).
  - intros a k Ha. destruct (Hown a k Ha) as [[_ Hk]|(_ & _ & Hk)];
      eapply H3; exact Hk.
  - intros a b k Ha Hb.
    destruct (Hown a k Ha) as [[-> Ha']|(Hat & Hao & Ha')];
      destruct (Hown b k Hb) as [[-> Hb']|(Hbt & Hbo & Hb')].
    + reflexivity.
    + exfalso. apply Hbo. exact (H4 b other k Hb' Ha').
    + exfalso. apply Hao. exact (H4 a other k Ha' Hb').
    + exact (H4 a b k Ha' Hb').
  - intros k Hk. destruct (H5 k Hk) as (a & Ha).
    destruct (decide (a = other)) as [->|Hao].
    + exists this. rewrite lookup_insert_eq. congruence.
    + exists a. assert (a <> this) by congruence.
      rewrite !lookup_insert_ne by congruence. exact Ha.
Qed.

(** *** What the destructor and the move assignment compute *)

Lemma dtor_static this s m :
  static = true -> objects m !! this = Some s ->
  dtor w Size StaticThreshold this m =
    Ok tt (with_objects (delete this (objects m)) m).
Proof.
  intros Hst Ho. unfold dtor. rewrite Hst. unfold bind, ret, end_lifetime.
  rewrite Ho. reflexivity.
Qed.

Lemma dtor_null this m :
  static = false -> objects m !! this = Some (DynamicBuffer None) ->
  dtor w Size StaticThreshold this m =
    Ok tt (with_objects (delete this (objects m)) m).
Proof.
  intros Hst Ho. unfold dtor. rewrite Hst.
  unfold unique_ptr_destroy, bind, ret, get_buffer, end_lifetime.
  rewrite Ho. simpl. rewrite Ho. reflexivity.
Qed.

Lemma dtor_owning this l bs m :
  static = false -> objects m !! this = Some (DynamicBuffer (Some l)) ->
  heap m !! l = Some bs ->
  dtor w Size StaticThreshold this m =
    Ok tt (Memory (delete this (objects m)) (delete l (heap m))
                  (capacity m + length bs) (allocations m) (S (releases m))).
Proof.
  intros Hst Ho Hh. unfold dtor. rewrite Hst.
  unfold unique_ptr_destroy, delete_array, bind, ret, get_buffer, end_lifetime.
  rewrite Ho. simpl. rewrite Hh. simpl. rewrite Ho. reflexivity.
Qed.

Lemma unique_ptr_reset_owning this p l bs m :
  objects m !! this = Some (DynamicBuffer (Some l)) ->
  heap m !! l = Some bs ->
  unique_ptr_reset this p m =
    Ok tt (Memory (<[this := DynamicBuffer p]> (objects m)) (delete l (heap m))
                  (capacity m + length bs) (allocations m) (S (releases m))).
Proof.
  intros Ho Hh. unfold unique_ptr_reset, delete_array, bind, get_buffer, set_buffer.
  rewrite Ho. simpl. rewrite Ho. simpl. rewrite Hh. reflexivity.
Qed.

(** The target was null: the pointer moves, nothing is released. *)
Lemma move_assign_onto_null this other p m :
  this <> other -> static = false ->
  objects m !! this = Some (DynamicBuffer None) ->
  objects m !! other = Some (DynamicBuffer p) ->
  move_assign w Size StaticThreshold this other m =
    Ok tt (with_objects (<[this := DynamicBuffer p]>
                           (<[other := DynamicBuffer None]> (objects m))) m).
Proof.
  intros Hne Hst Ht Ho. unfold move_assign.
  rewrite decide_True by assumption. rewrite Hst.
  unfold unique_ptr_move_assign.
  rewrite (bind_Ok _ _ _ _ _ (unique_ptr_release_ok other p m Ho)).
  rewrite unique_ptr_reset_null; [reflexivity|].
  simpl. rewrite lookup_insert_ne by congruence. exact Ht.
Qed.

(** The target held an array: it is released, then the pointer moves. *)
Lemma move_assign_onto_owner this other p l bs m :
  this <> other -> static = false ->
  objects m !! this = Some (DynamicBuffer (Some l)) ->
  heap m !! l = Some bs ->
  objects m !! other = Some (DynamicBuffer p) ->
  move_assign w Size StaticThreshold this other m =
    Ok tt (Memory (<[this := DynamicBuffer p]>
                     (<[other := DynamicBuffer None]> (objects m)))
                  (delete l (heap m))
                  (capacity m + length bs) (allocations m) (S (releases m))).
Proof.
  intros Hne Hst Ht Hh Ho. unfold move_assign.
  rewrite decide_True by assumption. rewrite Hst.
  unfold unique_ptr_move_assign.
  rewrite (bind_Ok _ _ _ _ _ (unique_ptr_release_ok other p m Ho)).
  rewrite (unique_ptr_reset_owning this p l bs); [reflexivity| |exact Hh].
  simpl. rewrite lookup_insert_ne by congruence. exact Ht.
Qed.

(** The memory after a move assignment in the heap strategy is well
    formed. *)
Lemma wf_moved this other p old m c al r :
  wf m -> this <> other ->
  objects m !! this = Some (DynamicBuffer old) ->
  objects m !! other = Some (DynamicBuffer p) ->
  wf (Memory (<[this := DynamicBuffer p]>
                (<[other := DynamicBuffer None]> (objects m)))
             (match old with Some l => delete l (heap m) | None => heap m end)
             c al r).
Proof.
  intros Hwf Hne Ht Ho. destruct old as [l|].
  - pose proof (wf_drop this l m c al r Hwf Ht) as Hwf1.
    pose proof (wf_hand_over this other p _ Hwf1 Hne) as Hwf2. simpl in Hwf2.
    rewrite lookup_insert_eq, lookup_insert_ne in Hwf2 by congruence.
    specialize (Hwf2 eq_refl Ho). unfold with_objects in Hwf2. simpl in Hwf2.
    rewrite (insert_insert_ne _ other this) in Hwf2 by congruence.
    rewrite insert_insert_eq in Hwf2. exact Hwf2.
  - pose proof (wf_hand_over this other p m Hwf Hne Ht Ho) as Hwf2.
    destruct Hwf2 as [H1 H2 H3 H4 H5]. split; assumption.
Qed.

End lifecycle_facts.

(** ** Further properties of the lifecycle *)

(** X9: destroying a non-moved-from handle ends its lifetime and keeps the
    memory well formed and every other handle's bytes; in the heap strategy
    the array of the handle, and no other, is released by one [delete[]]
    and its bytes go back to the allocator, in the inline strategy the heap
    is not touched. *)
Theorem destructor_releases_once (w Size StaticThreshold : Z)
    (h : address) (bs : list byte) (m : memory) :
  SmartBuffer.wf w Size StaticThreshold m ->
  SmartBuffer.contents h m = Some bs ->
  exists m',
    SmartBuffer.dtor w Size StaticThreshold h m = Ok tt m' /\
    SmartBuffer.wf w Size StaticThreshold m' /\
    objects m' !! h = None /\
    allocations m' = allocations m /\
    (forall other, other <> h ->
       SmartBuffer.contents other m' = SmartBuffer.contents other m) /\
    if SmartBuffer.static w Size StaticThreshold then
      heap m' = heap m /\ releases m' = releases m /\
      capacity m' = capacity m
    else
      exists l,
        objects m !! h = Some (DynamicBuffer (Some l)) /\
        heap m' = delete l (heap m) /\
        releases m' = S (releases m) /\
        capacity m' = (capacity m + SmartBuffer.actual_len w Size)%nat.
Proof.
  intros Hwf Hc.
  pose proof (contents_length _ _ _ _ _ _ Hwf Hc) as Hlen.
  destruct (contents_Some_inv _ _ _ Hc) as [Hs|(l & Ho & Hh)].
  - destruct (SmartBuffer.wf_static _ _ _ _ Hwf h bs Hs) as [Hst _].
    eexists. split; [eapply dtor_static; eassumption|]. rewrite Hst.
    split; [|split; [|split; [|split]]].
    + apply wf_remove; [assumption|].
      intros k Hk. unfold SmartBuffer.owns in Hk. congruence.
    + simpl. apply lookup_delete_eq.
    + reflexivity.
    + intros other Hne. unfold SmartBuffer.contents. simpl.
      rewrite lookup_delete_ne by congruence. reflexivity.
    + auto.
  - pose proof (SmartBuffer.wf_dynamic _ _ _ _ Hwf h _ Ho) as Hst.
    eexists. split; [eapply dtor_owning; eassumption|]. rewrite Hst.
    split; [|split; [|split; [|split]]].
    + pose proof (wf_drop w Size StaticThreshold h l m
                    (capacity m + length bs) (allocations m)
                    (S (releases m)) Hwf Ho) as Hwf1.
      pose proof (wf_remove w Size StaticThreshold h _ Hwf1) as Hwf2.
      unfold with_objects in Hwf2. simpl in Hwf2.
      rewrite delete_insert_eq in Hwf2. apply Hwf2.
      intros k Hk. unfold SmartBuffer.owns in Hk. simpl in Hk.
      rewrite lookup_insert_eq in Hk. discriminate.
    + simpl. apply lookup_delete_eq.
    + reflexivity.
    + intros other Hne. unfold SmartBuffer.contents. simpl.
      rewrite lookup_delete_ne by congruence.
      destruct (objects m !! other) as [[e|[k|]]|] eqn:E; try reflexivity.
      apply lookup_delete_ne. intros <-. apply Hne.
      exact (SmartBuffer.wf_unique _ _ _ _ Hwf other h l E Ho).
    + exists l. simpl. rewrite Hlen. auto.
Qed.

Lemma destructor_releases_once_witness :
  SmartBuffer.wf 64 33 32 heap_sample /\
  SmartBuffer.contents 1%positive heap_sample = Some (replicate 40 x07) /\
  exists m',
    SmartBuffer.dtor 64 33 32 1%positive heap_sample = Ok tt m' /\
    SmartBuffer.wf 64 33 32 m' /\
    objects m' !! 1%positive = None.
Proof.
  split; [exact wf_heap_sample|]. split; [reflexivity|].
  destruct (destructor_releases_once 64 33 32 1%positive (replicate 40 x07)
              heap_sample wf_heap_sample eq_refl)
    as (m' & Hrun & Hwf & Hgone & _).
  exists m'. auto.
Defined.

(** X10: a moved-from handle of the heap strategy is safe to destroy: the
    destructor returns, calls no [delete[]], leaves the heap and the
    allocator as they are and the memory well formed. *)
Theorem moved_from_destroys_safely (w Size StaticThreshold : Z)
    (h : address) (m : memory) :
  SmartBuffer.wf w Size StaticThreshold m ->
  objects m !! h = Some (DynamicBuffer None) ->
  exists m',
    SmartBuffer.dtor w Size StaticThreshold h m = Ok tt m' /\
    SmartBuffer.wf w Size StaticThreshold m' /\
    objects m' = delete h (objects m) /\
    heap m' = heap m /\ capacity m' = capacity m /\
    allocations m' = allocations m /\ releases m' = releases m.
Proof.
  intros Hwf Ho.
  pose proof (SmartBuffer.wf_dynamic _ _ _ _ Hwf h _ Ho) as Hst.
  eexists. split; [eapply dtor_null; eassumption|].
  split; [|simpl; auto 10].
  apply wf_remove; [assumption|].
  intros k Hk. unfold SmartBuffer.owns in Hk. congruence.
Qed.

Lemma moved_from_destroys_safely_witness :
  SmartBuffer.wf 64 33 32 heap_sample /\
  objects heap_sample !! 2%positive = Some (DynamicBuffer None) /\
  exists m',
    SmartBuffer.dtor 64 33 32 2%positive heap_sample = Ok tt m' /\
    heap m' = heap heap_sample /\ releases m' = releases heap_sample.
Proof.
  split; [exact wf_heap_sample|]. split; [reflexivity|].
  destruct (moved_from_destroys_safely 64 33 32 2%positive heap_sample
              wf_heap_sample eq_refl)
    as (m' & Hrun & _ & _ & Hh & _ & _ & Hr).
  exists m'. auto.
Defined.

(** X11: through a moved-from handle of the heap strategy [data()] is the
    null pointer, and every access is undefined behaviour: reading or
    writing any index, [fill], [fill_all], copy-constructing from it and
    copy-assigning from it onto any other handle of a live object.  The
    copy constructor and a copy assignment onto a null target allocate
    before they read the source: they get that far when the allocator has
    [ACTUAL_SIZE] bytes left, and throw [std::bad_alloc] when it has not. *)
Theorem moved_from_access_undefined (w Size StaticThreshold : Z)
    (h : address) (m : memory) :
  16 <= w -> SizeT.in_range w Size -> 0 <= StaticThreshold ->
  SmartBuffer.wf w Size StaticThreshold m ->
  objects m !! h = Some (DynamicBuffer None) ->
  SmartBuffer.data w Size StaticThreshold h m = Ok NullPtr m /\
  (forall i v,
     SmartBuffer.subscript w Size StaticThreshold h i m = Undefined /\
     SmartBuffer.subscript_assign w Size StaticThreshold h i v m = Undefined /\
     SmartBuffer.fill w Size StaticThreshold h v m = Undefined /\
     SmartBuffer.fill_all w Size StaticThreshold h v m = Undefined) /\
  (forall c junk,
     objects m !! c = None ->
     SmartBuffer.ctor_copy w Size StaticThreshold c h junk m =
       if decide (SmartBuffer.actual_len w Size <= capacity m)%nat
       then Undefined else BadAlloc) /\
  (forall t pt,
     t <> h -> objects m !! t = Some (DynamicBuffer pt) ->
     SmartBuffer.copy_assign w Size StaticThreshold t h m =
       match pt with
       | Some _ => Undefined
       | None =>
           if decide (SmartBuffer.actual_len w Size <= capacity m)%nat
           then Undefined else BadAlloc
       end).
Proof.
  intros Hw Hr HT Hwf Ho.
  pose proof (SmartBuffer.wf_dynamic _ _ _ _ Hwf h _ Ho) as Hst.
  pose proof (heap_actual_len_pos w Size StaticThreshold Hw HT Hst) as Hn.
  pose proof (heap_size_len_pos w Size StaticThreshold Hw Hr HT Hst) as Hs.
  pose proof (data_null w Size StaticThreshold h m Hwf Ho) as Hd.
  destruct (SmartBuffer.actual_len w Size) as [|n] eqn:En; [lia|].
  destruct (SmartBuffer.size_len Size) as [|k] eqn:Es; [lia|].
  assert (Hcopy : forall a l m3,
            a <> h ->
            objects m3 !! h = Some (DynamicBuffer None) ->
            objects m3 !! a = Some (DynamicBuffer (Some l)) ->
            (let* src := unique_ptr_get h in
             let* dst := unique_ptr_get a in
             copy_n src (S n) dst) m3 = Undefined).
  { intros a l m3 Hne Hh Ha.
    unfold unique_ptr_get, bind, get_buffer, ret. rewrite Hh. simpl.
    rewrite Ha. reflexivity. }
  split; [exact Hd|]. split; [|split].
  - intros i v.
    unfold SmartBuffer.subscript, SmartBuffer.subscript_assign,
      SmartBuffer.fill, SmartBuffer.fill_all.
    rewrite !(bind_Ok _ _ _ _ _ Hd), En, Es. auto.
  - intros c junk Hnew. assert (Hne : c <> h) by congruence.
    unfold SmartBuffer.ctor_copy. rewrite Hst, En.
    unfold bind at 1. unfold begin_lifetime. rewrite Hnew.
    destruct (decide (S n <= capacity m)%nat) as [Hcap|Hcap].
    + erewrite bind_Ok by (apply make_unique_ok; exact Hcap).
      erewrite bind_Ok by (apply unique_ptr_reset_null; apply lookup_insert_eq).
      eapply Hcopy; [exact Hne | | apply lookup_insert_eq]. simpl.
      rewrite !lookup_insert_ne by congruence. exact Ho.
    + unfold bind, make_unique. simpl. rewrite decide_False by assumption.
      reflexivity.
  - intros t pt Hne Ht.
    unfold SmartBuffer.copy_assign.
    rewrite decide_True by assumption. rewrite Hst, En.
    destruct pt as [lt|].
    + rewrite (bind_Ok _ _ _ _ _ (unique_ptr_bool_ok t _ m Ht)).
      rewrite bool_decide_true by eauto. simpl.
      unfold bind at 1. unfold ret at 1.
      eapply Hcopy; eassumption.
    + rewrite (bind_Ok _ _ _ _ _ (unique_ptr_bool_ok t _ m Ht)).
      rewrite bool_decide_false by (intros [? ?]; discriminate). simpl.
      destruct (decide (S n <= capacity m)%nat) as [Hcap|Hcap].
      * erewrite bind_Ok.
        2:{ erewrite bind_Ok by (apply make_unique_ok; exact Hcap).
            apply unique_ptr_reset_null. exact Ht. }
        eapply Hcopy; [exact Hne | | apply lookup_insert_eq]. simpl.
        rewrite lookup_insert_ne by congruence. exact Ho.
      * unfold bind, make_unique. rewrite decide_False by assumption.
        reflexivity.
Qed.

Lemma moved_from_access_undefined_witness :
  16 <= 64 /\ SizeT.in_range 64 33 /\ 0 <= 32 /\
  SmartBuffer.wf 64 33 32 heap_sample /\
  objects heap_sample !! 2%positive = Some (DynamicBuffer None) /\
  SmartBuffer.data 64 33 32 2%positive heap_sample = Ok NullPtr heap_sample /\
  SmartBuffer.subscript 64 33 32 2%positive 0 heap_sample = Undefined /\
  SmartBuffer.copy_assign 64 33 32 1%positive 2%positive heap_sample
    = Undefined.
Proof.
  assert (Hr : SizeT.in_range 64 33) by (split; [lia | reflexivity]).
  split; [lia|]. split; [exact Hr|]. split; [lia|].
  split; [exact wf_heap_sample|]. split; [reflexivity|].
  destruct (moved_from_access_undefined 64 33 32 2%positive heap_sample
              ltac:(lia) Hr ltac:(lia) wf_heap_sample eq_refl)
    as (Hd & Hacc & _ & Hassign).
  split; [exact Hd|]. split; [apply (Hacc 0%nat x00)|].
  apply (Hassign 1%positive (Some 5%positive)); [discriminate | reflexivity].
Defined.

(** X12: constructing a buffer and destroying it gives back the memory it
    started from: the same objects, the same heap and the same allocator
    capacity; in the heap strategy exactly one [new[]] and one [delete[]]
    were called, in the inline strategy none. *)
Theorem construct_destroy_round_trip (w Size StaticThreshold : Z)
    (this : address) (junk : nat -> byte) (m : memory) :
  objects m !! this = None ->
  (SmartBuffer.static w Size StaticThreshold = false ->
   (SmartBuffer.actual_len w Size <= capacity m)%nat) ->
  let calls := if SmartBuffer.static w Size StaticThreshold then 0%nat
               else 1%nat in
  bind (SmartBuffer.ctor_default w Size StaticThreshold this junk)
       (fun _ => SmartBuffer.dtor w Size StaticThreshold this) m
  = Ok tt (Memory (objects m) (heap m) (capacity m)
                  (allocations m + calls) (releases m + calls)).
Proof.
  intros Hnew Hcap calls. unfold calls.
  destruct (SmartBuffer.static w Size StaticThreshold) eqn:Hst.
  - erewrite bind_Ok by (apply ctor_default_static; assumption).
    erewrite dtor_static; [|exact Hst|apply lookup_insert_eq].
    unfold with_objects. simpl.
    rewrite delete_insert_id by assumption.
    rewrite !Nat.add_0_r. reflexivity.
  - specialize (Hcap eq_refl).
    erewrite bind_Ok by (apply ctor_default_dynamic; assumption).
    erewrite dtor_owning;
      [|exact Hst | apply lookup_insert_eq | apply lookup_insert_eq].
    simpl. rewrite !delete_insert_id by (assumption || apply fresh_heap).
    rewrite length_replicate. f_equal. f_equal; lia.
Qed.

Lemma construct_destroy_round_trip_witness :
  objects heap_sample !! 3%positive = None /\
  (SmartBuffer.static 64 33 32 = false ->
   (SmartBuffer.actual_len 64 33 <= capacity heap_sample)%nat) /\
  bind (SmartBuffer.ctor_default 64 33 32 3%positive (fun _ => xff))
       (fun _ => SmartBuffer.dtor 64 33 32 3%positive) heap_sample
  = Ok tt (Memory (objects heap_sample) (heap heap_sample)
                  (capacity heap_sample)
                  (allocations heap_sample + 1) (releases heap_sample + 1)).
Proof.
  assert (Hcap : SmartBuffer.static 64 33 32 = false ->
                 (SmartBuffer.actual_len 64 33 <= capacity heap_sample)%nat).
  { intros _. vm_compute. lia. }
  split; [reflexivity|]. split; [exact Hcap|].
  exact (construct_destroy_round_trip 64 33 32 3%positive (fun _ => xff)
           heap_sample eq_refl Hcap).
Defined.

(** X13: move assignment onto a distinct target in the heap strategy never
    allocates: the target takes the pointer the source held and the bytes
    with it, the source is left null, the array the target held before, if
    any, is released by one [delete[]], every other handle keeps its bytes
    and the memory stays well formed. *)
Theorem move_assign_heap (w Size StaticThreshold : Z) (t s : address)
    (pt : option address) (bs : list byte) (m : memory) :
  SmartBuffer.wf w Size StaticThreshold m ->
  t <> s ->
  objects m !! t = Some (DynamicBuffer pt) ->
  SmartBuffer.contents s m = Some bs ->
  exists m',
    SmartBuffer.move_assign w Size StaticThreshold t s m = Ok tt m' /\
    SmartBuffer.wf w Size StaticThreshold m' /\
    SmartBuffer.contents t m' = Some bs /\
    objects m' !! t = objects m !! s /\
    objects m' !! s = Some (DynamicBuffer None) /\
    allocations m' = allocations m /\
    (forall other, other <> t -> other <> s ->
       SmartBuffer.contents other m' = SmartBuffer.contents other m) /\
    match pt with
    | Some l =>
        heap m' = delete l (heap m) /\ releases m' = S (releases m) /\
        capacity m' = (capacity m + SmartBuffer.actual_len w Size)%nat
    | None =>
        heap m' = heap m /\ releases m' = releases m /\
        capacity m' = capacity m
    end.
Proof.
  intros Hwf Hne Ht Hc.
  pose proof (SmartBuffer.wf_dynamic _ _ _ _ Hwf t _ Ht) as Hst.
  destruct (contents_Some_inv _ _ _ Hc) as [Hs|(ls & Ho & Hh)].
  { destruct (SmartBuffer.wf_static _ _ _ _ Hwf s bs Hs). congruence. }
  assert (Hobj : forall (o : gmap positive storage),
            o = <[t := DynamicBuffer (Some ls)]>
                  (<[s := DynamicBuffer None]> (objects m)) ->
            o !! t = objects m !! s /\
            o !! s = Some (DynamicBuffer None) /\
            forall other, other <> t -> other <> s ->
                          o !! other = objects m !! other).
  { intros o ->. rewrite lookup_insert_eq, Ho.
    rewrite lookup_insert_ne, lookup_insert_eq by congruence.
    split; [reflexivity|]. split; [reflexivity|].
    intros other H1 H2. rewrite !lookup_insert_ne by congruence. reflexivity. }
  destruct pt as [lt|].
  - destruct (SmartBuffer.wf_region _ _ _ _ Hwf t lt Ht) as (d & Hd & Hld).
    assert (Hl : ls <> lt).
    { intros ->. apply Hne. symmetry.
      exact (SmartBuffer.wf_unique _ _ _ _ Hwf s t lt Ho Ht). }
    eexists. split; [eapply move_assign_onto_owner; eassumption|].
    destruct (Hobj _ eq_refl) as (Ho1 & Ho2 & Ho3).
    split; [exact (wf_moved w Size StaticThreshold t s (Some ls) (Some lt) m
                     _ _ _ Hwf Hne Ht Ho)|].
    split; [|split; [exact Ho1|split; [exact Ho2|split; [reflexivity|split]]]].
    + unfold SmartBuffer.contents. simpl. rewrite lookup_insert_eq.
      rewrite lookup_delete_ne by congruence. exact Hh.
    + intros other H1 H2. unfold SmartBuffer.contents. simpl.
      rewrite (Ho3 other H1 H2).
      destruct (objects m !! other) as [[e|[k|]]|] eqn:E; try reflexivity.
      apply lookup_delete_ne. intros <-. apply H1.
      exact (SmartBuffer.wf_unique _ _ _ _ Hwf other t lt E Ht).
    + simpl. rewrite Hld. auto.
  - eexists. split; [eapply move_assign_onto_null; eassumption|].
    destruct (Hobj _ eq_refl) as (Ho1 & Ho2 & Ho3).
    split; [exact (wf_moved w Size StaticThreshold t s (Some ls) None m
                     _ _ _ Hwf Hne Ht Ho)|].
    split; [|split; [exact Ho1|split; [exact Ho2|split; [reflexivity|split]]]].
    + unfold SmartBuffer.contents. simpl. rewrite lookup_insert_eq. exact Hh.
    + intros other H1 H2. unfold SmartBuffer.contents. simpl.
      rewrite (Ho3 other H1 H2). reflexivity.
    + simpl. auto.
Qed.

Lemma move_assign_heap_witness :
  SmartBuffer.wf 64 33 32 heap_sample /\
  2%positive <> 1%positive /\
  objects heap_sample !! 2%positive = Some (DynamicBuffer None) /\
  SmartBuffer.contents 1%positive heap_sample = Some (replicate 40 x07) /\
  exists m',
    SmartBuffer.move_assign 64 33 32 2%positive 1%positive heap_sample
      = Ok tt m' /\
    SmartBuffer.contents 2%positive m' = Some (replicate 40 x07) /\
    objects m' !! 1%positive = Some (DynamicBuffer None) /\
    allocations m' = allocations heap_sample.
Proof.
  assert (Hne : 2%positive <> 1%positive) by discriminate.
  split; [exact wf_heap_sample|]. split; [exact Hne|].
  split; [reflexivity|]. split; [reflexivity|].
  destruct (move_assign_heap 64 33 32 2%positive 1%positive None
              (replicate 40 x07) heap_sample wf_heap_sample Hne
              eq_refl eq_refl)
    as (m' & Hrun & _ & Hct & _ & Hs & Hal & _).
  exists m'. auto.
Defined.

(** X14: copy assignment onto a distinct target in the inline strategy
    gives the target the bytes of the source, padding included, leaves
    every other handle's bytes (the source's among them) as they were, and
    does not touch the heap or the allocator. *)
Theorem copy_assign_inline (w Size StaticThreshold : Z) (t s : address)
    (old bs : list byte) (m : memory) :
  SmartBuffer.wf w Size StaticThreshold m ->
  SmartBuffer.static w Size StaticThreshold = true ->
  t <> s ->
  SmartBuffer.contents t m = Some old ->
  SmartBuffer.contents s m = Some bs ->
  exists m',
    SmartBuffer.copy_assign w Size StaticThreshold t s m = Ok tt m' /\
    SmartBuffer.wf w Size StaticThreshold m' /\
    SmartBuffer.contents t m' = Some bs /\
    (forall other, other <> t ->
       SmartBuffer.contents other m' = SmartBuffer.contents other m) /\
    heap m' = heap m /\ capacity m' = capacity m /\
    allocations m' = allocations m /\ releases m' = releases m.
Proof.
  intros Hwf Hst Hne Hct Hcs.
  pose proof (contents_length _ _ _ _ _ _ Hwf Hcs) as Hlen.
  assert (Hshape : forall a x, SmartBuffer.contents a m = Some x ->
                               objects m !! a = Some (StaticBuffer x)).
  { intros a x Hx. destruct (contents_Some_inv _ _ _ Hx) as [Hs|(l & Ho & _)];
      [exact Hs|].
    pose proof (SmartBuffer.wf_dynamic _ _ _ _ Hwf a _ Ho). congruence. }
  eexists. split.
  { eapply copy_assign_static; eauto. }
  split; [apply wf_put_static; assumption|].
  split; [|split; [|simpl; auto]].
  - unfold SmartBuffer.contents. simpl. rewrite lookup_insert_eq. reflexivity.
  - intros other Ho. unfold SmartBuffer.contents. simpl.
    rewrite lookup_insert_ne by congruence. reflexivity.
Qed.

Lemma copy_assign_inline_witness :
  SmartBuffer.wf 64 13 32 static_sample /\
  SmartBuffer.static 64 13 32 = true /\
  2%positive <> 1%positive /\
  SmartBuffer.contents 2%positive static_sample = Some (replicate 16 x00) /\
  SmartBuffer.contents 1%positive static_sample = Some (replicate 16 x07) /\
  exists m',
    SmartBuffer.copy_assign 64 13 32 2%positive 1%positive static_sample
      = Ok tt m' /\
    SmartBuffer.contents 2%positive m' = Some (replicate 16 x07).
Proof.
  assert (Hne : 2%positive <> 1%positive) by discriminate.
  split; [exact wf_static_sample|]. split; [reflexivity|].
  split; [exact Hne|]. split; [reflexivity|]. split; [reflexivity|].
  destruct (copy_assign_inline 64 13 32 2%positive 1%positive
              (replicate 16 x00) (replicate 16 x07) static_sample
              wf_static_sample eq_refl Hne eq_refl eq_refl)
    as (m' & Hrun & _ & Hc & _).
  exists m'. auto.
Defined.

(** X16: in the heap strategy, when the allocator cannot hand out
    [ACTUAL_SIZE] bytes, the default constructor, the copy constructor and
    a copy assignment onto a moved-from target throw [std::bad_alloc]; a
    copy assignment onto a target that holds an array does not allocate
    and is covered by C9. *)
Theorem allocation_failure (w Size StaticThreshold : Z)
    (this other : address) (junk : nat -> byte) (m : memory) :
  SmartBuffer.static w Size StaticThreshold = false ->
  (capacity m < SmartBuffer.actual_len w Size)%nat ->
  (objects m !! this = None ->
   SmartBuffer.ctor_default w Size StaticThreshold this junk m = BadAlloc /\
   SmartBuffer.ctor_copy w Size StaticThreshold this other junk m = BadAlloc) /\
  (this <> other -> objects m !! this = Some (DynamicBuffer None) ->
   SmartBuffer.copy_assign w Size StaticThreshold this other m = BadAlloc).
Proof.
  intros Hst Hcap. split.
  - intros Hnew.
    unfold SmartBuffer.ctor_default, SmartBuffer.ctor_copy. rewrite Hst.
    unfold bind, begin_lifetime, make_unique. rewrite Hnew. simpl.
    rewrite decide_False by lia. auto.
  - intros Hne Ho. unfold SmartBuffer.copy_assign.
    rewrite decide_True by assumption. rewrite Hst.
    rewrite (bind_Ok _ _ _ _ _ (unique_ptr_bool_ok this _ m Ho)).
    rewrite bool_decide_false by (intros [? ?]; discriminate). simpl.
    unfold bind, make_unique. rewrite decide_False by lia. reflexivity.
Qed.

Lemma allocation_failure_witness :
  SmartBuffer.static 64 33 32 = false /\
  (capacity (empty_memory 39) < SmartBuffer.actual_len 64 33)%nat /\
  SmartBuffer.ctor_default 64 33 32 1%positive (fun _ => xff)
    (empty_memory 39) = BadAlloc.
Proof.
  assert (Hcap : (capacity (empty_memory 39) < SmartBuffer.actual_len 64 33)%nat)
    by (vm_compute; lia).
  split; [reflexivity|]. split; [exact Hcap|].
  destruct (allocation_failure 64 33 32 1%positive 2%positive (fun _ => xff)
              (empty_memory 39) eq_refl Hcap) as [Hctor _].
  apply Hctor. reflexivity.
Defined.

(** ** What no call does: exceptions and the count of arrays *)

Section composition.
Context {A B : Type}.

Lemma never_throws_ret (a : A) : never_throws (ret a).
Proof. intros m. discriminate. Qed.

Lemma never_throws_undefined : never_throws (fun _ : memory => @Undefined A).
Proof. intros m. discriminate. Qed.

Lemma never_throws_bind (c : M A) (k : A -> M B) :
  never_throws c -> (forall a, never_throws (k a)) -> never_throws (bind c k).
Proof.
  intros Hc Hk m. unfold bind. destruct (c m) as [a m'| |] eqn:E.
  - apply Hk.
  - exfalso. exact (Hc m E).
  - discriminate.
Qed.

Lemma preserves_ret P (a : A) : preserves P (ret a).
Proof. intros m a' m' HP [= _ <-]. exact HP. Qed.

Lemma preserves_undefined P : preserves P (fun _ : memory => @Undefined A).
Proof. intros m a m' _ H. discriminate H. Qed.

Lemma preserves_bind P (c : M A) (k : A -> M B) :
  preserves P c -> (forall a, preserves P (k a)) -> preserves P (bind c k).
Proof.
  intros Hc Hk m b m' HP. unfold bind. destruct (c m) as [a m1| |] eqn:E;
    try discriminate.
  intros Hrun. exact (Hk a m1 b m' (Hc m a m1 HP E) Hrun).
Qed.

End composition.

Ltac case_body :=
  match goal with
  | |- context [match ?x with _ => _ end] => destruct x eqn:?
  end.

Ltac never_throws_prim :=
  intros m; cbv beta delta [get_buffer set_buffer load store delete_array
                            begin_lifetime end_lifetime];
  repeat case_body; discriminate.

Lemma never_throws_get_buffer this : never_throws (get_buffer this).
Proof. never_throws_prim. Qed.

Lemma never_throws_set_buffer this s : never_throws (set_buffer this s).
Proof. never_throws_prim. Qed.

Lemma never_throws_load p i : never_throws (load p i).
Proof. never_throws_prim. Qed.

Lemma never_throws_store p i v : never_throws (store p i v).
Proof. never_throws_prim. Qed.

Lemma never_throws_delete_array l : never_throws (delete_array l).
Proof. never_throws_prim. Qed.

Lemma never_throws_begin_lifetime st n this junk :
  never_throws (begin_lifetime st n this junk).
Proof. never_throws_prim. Qed.

Lemma never_throws_end_lifetime this : never_throws (end_lifetime this).
Proof. never_throws_prim. Qed.

Create HintDb throws.
#[local] Hint Resolve never_throws_get_buffer never_throws_set_buffer
  never_throws_load never_throws_store never_throws_delete_array
  never_throws_begin_lifetime never_throws_end_lifetime : throws.

Ltac never_throws_step :=
  first
    [ apply never_throws_ret
    | apply never_throws_undefined
    | solve [auto with throws]
    | apply never_throws_bind; [|intros ?]
    | match goal with
      | |- never_throws (match ?x with _ => _ end) => destruct x
      | |- never_throws (if ?b then _ else _) => destruct b
      end ].

Lemma never_throws_fill_n_from p v n : forall i,
  never_throws (fill_n_from p i n v).
Proof. induction n; intros i; simpl; repeat never_throws_step. Qed.

Lemma never_throws_copy_n_from src dst n : forall i,
  never_throws (copy_n_from src i n dst).
Proof. induction n; intros i; simpl; repeat never_throws_step. Qed.

#[local] Hint Resolve never_throws_fill_n_from never_throws_copy_n_from
  : throws.

Lemma never_throws_unique_ptr_get this : never_throws (unique_ptr_get this).
Proof. unfold unique_ptr_get. repeat never_throws_step. Qed.

Lemma never_throws_unique_ptr_destroy this :
  never_throws (unique_ptr_destroy this).
Proof. unfold unique_ptr_destroy. repeat never_throws_step. Qed.

Lemma never_throws_unique_ptr_move_assign this other :
  never_throws (unique_ptr_move_assign this other).
Proof.
  unfold unique_ptr_move_assign, unique_ptr_release, unique_ptr_reset.
  repeat never_throws_step.
Qed.

Lemma never_throws_array_data this : never_throws (array_data this).
Proof. unfold array_data. repeat never_throws_step. Qed.

Lemma never_throws_array_assign this other :
  never_throws (array_assign this other).
Proof. unfold array_assign. repeat never_throws_step. Qed.

#[local] Hint Resolve never_throws_unique_ptr_get
  never_throws_unique_ptr_destroy never_throws_unique_ptr_move_assign
  never_throws_array_data never_throws_array_assign : throws.

Lemma never_throws_data w Size StaticThreshold this :
  never_throws (SmartBuffer.data w Size StaticThreshold this).
Proof. unfold SmartBuffer.data. repeat never_throws_step. Qed.

#[local] Hint Resolve never_throws_data : throws.

Lemma never_throws_mutate w Size StaticThreshold this mu :
  never_throws (SmartBuffer.mutate w Size StaticThreshold this mu).
Proof.
  destruct mu; simpl;
    unfold SmartBuffer.subscript_assign, SmartBuffer.clear,
      SmartBuffer.clear_all, SmartBuffer.fill, SmartBuffer.fill_all, fill_n;
    repeat never_throws_step.
Qed.

(** X17: the move constructor, the move assignment (both declared
    [noexcept]), the destructor and the whole access surface never throw
    [std::bad_alloc], in any memory and for any handles. *)
Theorem moves_and_accesses_never_throw (w Size StaticThreshold : Z)
    (this other : address) (junk : nat -> byte) (index : nat)
    (mu : SmartBuffer.mutation) (m : memory) :
  SmartBuffer.ctor_move w Size StaticThreshold this other junk m <> BadAlloc /\
  SmartBuffer.move_assign w Size StaticThreshold this other m <> BadAlloc /\
  SmartBuffer.dtor w Size StaticThreshold this m <> BadAlloc /\
  SmartBuffer.data w Size StaticThreshold this m <> BadAlloc /\
  SmartBuffer.subscript w Size StaticThreshold this index m <> BadAlloc /\
  SmartBuffer.mutate w Size StaticThreshold this mu m <> BadAlloc.
Proof.
  repeat split; revert m.
  - change (never_throws
              (SmartBuffer.ctor_move w Size StaticThreshold this other junk)).
    unfold SmartBuffer.ctor_move, array_move_assign. repeat never_throws_step.
  - change (never_throws
              (SmartBuffer.move_assign w Size StaticThreshold this other)).
    unfold SmartBuffer.move_assign, array_move_assign. repeat never_throws_step.
  - change (never_throws (SmartBuffer.dtor w Size StaticThreshold this)).
    unfold SmartBuffer.dtor. repeat never_throws_step.
  - apply never_throws_data.
  - change (never_throws
              (SmartBuffer.subscript w Size StaticThreshold this index)).
    unfold SmartBuffer.subscript. repeat never_throws_step.
  - apply never_throws_mutate.
Qed.

(** X18: in the inline strategy no call allocates, so no constructor and no
    assignment throws [std::bad_alloc], whatever the allocator has left. *)
Theorem inline_never_throws (w Size StaticThreshold : Z)
    (this other : address) (junk : nat -> byte) (m : memory) :
  SmartBuffer.static w Size StaticThreshold = true ->
  SmartBuffer.ctor_default w Size StaticThreshold this junk m <> BadAlloc /\
  SmartBuffer.ctor_copy w Size StaticThreshold this other junk m <> BadAlloc /\
  SmartBuffer.copy_assign w Size StaticThreshold this other m <> BadAlloc.
Proof.
  intros Hst. repeat split; revert m.
  - change (never_throws
              (SmartBuffer.ctor_default w Size StaticThreshold this junk)).
    unfold SmartBuffer.ctor_default, array_fill, fill_n. rewrite Hst.
    repeat never_throws_step.
  - change (never_throws
              (SmartBuffer.ctor_copy w Size StaticThreshold this other junk)).
    unfold SmartBuffer.ctor_copy. rewrite Hst. repeat never_throws_step.
  - change (never_throws
              (SmartBuffer.copy_assign w Size StaticThreshold this other)).
    unfold SmartBuffer.copy_assign. rewrite Hst. repeat never_throws_step.
Qed.

Lemma inline_never_throws_witness :
  SmartBuffer.static 64 13 32 = true /\
  SmartBuffer.ctor_default 64 13 32 3%positive (fun _ => xff) static_sample
    <> BadAlloc.
Proof.
  split; [reflexivity|].
  apply (inline_never_throws 64 13 32 3%positive 1%positive (fun _ => xff)
           static_sample eq_refl).
Defined.

(** *** The count of live arrays *)

Lemma balanced_same_heap m m' :
  heap m' = heap m -> allocations m' = allocations m ->
  releases m' = releases m -> balanced m -> balanced m'.
Proof. unfold balanced. intros -> -> ->. auto. Qed.

Lemma balanced_set_region p bs bs' m :
  region p m = Some bs -> balanced m -> balanced (set_region p bs' m).
Proof.
  unfold balanced. destruct p as [|this|l]; simpl; intros Hr Hb;
    [discriminate|assumption|].
  rewrite map_size_insert_Some by eauto. exact Hb.
Qed.

Lemma preserves_balanced_get_buffer this : preserves balanced (get_buffer this).
Proof.
  intros m s m' Hb. unfold get_buffer. destruct (objects m !! this);
    [intros [= _ <-]; exact Hb | discriminate].
Qed.

Lemma preserves_balanced_set_buffer this s :
  preserves balanced (set_buffer this s).
Proof.
  intros m u m' Hb. unfold set_buffer. destruct (objects m !! this);
    [intros [= _ <-]; exact Hb | discriminate].
Qed.

Lemma preserves_balanced_load p i : preserves balanced (load p i).
Proof.
  intros m b m' Hb. unfold load. destruct (region p m) as [bs|];
    [|discriminate].
  destruct (bs !! i); [intros [= _ <-]; exact Hb | discriminate].
Qed.

Lemma preserves_balanced_store p i v : preserves balanced (store p i v).
Proof.
  intros m u m' Hb. unfold store. destruct (region p m) as [bs|] eqn:Hr;
    [|discriminate].
  destruct (decide (i < length bs)%nat); [|discriminate].
  intros [= _ <-]. eapply balanced_set_region; eassumption.
Qed.

Lemma preserves_balanced_make_unique n : preserves balanced (make_unique n).
Proof.
  intros m l m' Hb. unfold make_unique.
  destruct (decide (n <= capacity m)%nat); [|discriminate].
  intros [= _ <-]. unfold balanced in *. simpl.
  rewrite map_size_insert_None by apply fresh_heap. lia.
Qed.

Lemma preserves_balanced_delete_array l : preserves balanced (delete_array l).
Proof.
  intros m u m' Hb. unfold delete_array.
  destruct (heap m !! l) as [bs|] eqn:Hl; [|discriminate].
  intros [= _ <-]. unfold balanced in *. simpl.
  rewrite map_size_delete_Some by eauto.
  pose proof (map_size_ne_0_lookup_2 (heap m) l ltac:(eauto)). lia.
Qed.

Lemma preserves_balanced_begin_lifetime st n this junk :
  preserves balanced (begin_lifetime st n this junk).
Proof.
  intros m u m' Hb. unfold begin_lifetime. destruct (objects m !! this);
    [discriminate | intros [= _ <-]; exact Hb].
Qed.

Lemma preserves_balanced_end_lifetime this :
  preserves balanced (end_lifetime this).
Proof.
  intros m u m' Hb. unfold end_lifetime. destruct (objects m !! this);
    [intros [= _ <-]; exact Hb | discriminate].
Qed.

Create HintDb balance.
#[local] Hint Resolve preserves_balanced_get_buffer
  preserves_balanced_set_buffer preserves_balanced_load
  preserves_balanced_store preserves_balanced_make_unique
  preserves_balanced_delete_array preserves_balanced_begin_lifetime
  preserves_balanced_end_lifetime : balance.

Ltac preserves_step :=
  first
    [ apply preserves_ret
    | apply preserves_undefined
    | solve [auto with balance]
    | apply preserves_bind; [|intros ?]
    | match goal with
      | |- preserves _ (match ?x with _ => _ end) => destruct x
      | |- preserves _ (if ?b then _ else _) => destruct b
      end ].

Lemma preserves_balanced_fill_n_from p v n : forall i,
  preserves balanced (fill_n_from p i n v).
Proof. induction n; intros i; simpl; repeat preserves_step. Qed.

Lemma preserves_balanced_copy_n_from src dst n : forall i,
  preserves balanced (copy_n_from src i n dst).
Proof. induction n; intros i; simpl; repeat preserves_step. Qed.

#[local] Hint Resolve preserves_balanced_fill_n_from
  preserves_balanced_copy_n_from : balance.

(** Every call of the class keeps the count of [new[]] calls equal to the
    count of [delete[]] calls plus the number of live arrays. *)
Lemma preserves_balanced_perform w Size StaticThreshold op :
  preserves balanced (Program.perform w Size StaticThreshold op).
Proof.
  destruct op as [this junk|this other junk|this other junk|this other
                 |this other|this|this mu]; simpl.
  - unfold SmartBuffer.ctor_default, array_fill, array_data, unique_ptr_reset,
      unique_ptr_get, fill_n.
    repeat preserves_step.
  - unfold SmartBuffer.ctor_copy, array_assign, unique_ptr_reset,
      unique_ptr_get, copy_n.
    repeat preserves_step.
  - unfold SmartBuffer.ctor_move, array_move_assign, array_assign,
      unique_ptr_move_assign, unique_ptr_release, unique_ptr_reset.
    repeat preserves_step.
  - unfold SmartBuffer.copy_assign, array_assign, unique_ptr_bool,
      unique_ptr_reset, unique_ptr_get, copy_n.
    repeat preserves_step.
  - unfold SmartBuffer.move_assign, array_move_assign, array_assign,
      unique_ptr_move_assign, unique_ptr_release, unique_ptr_reset.
    repeat preserves_step.
  - unfold SmartBuffer.dtor, unique_ptr_destroy. repeat preserves_step.
  - destruct mu; simpl;
      unfold SmartBuffer.subscript_assign, SmartBuffer.clear,
        SmartBuffer.clear_all, SmartBuffer.fill, SmartBuffer.fill_all,
        SmartBuffer.data, array_data, unique_ptr_get, fill_n;
      repeat preserves_step.
Qed.

(** *** The representation invariant *)

Section invariant_facts.
Import SmartBuffer.
Variables (w Size StaticThreshold : Z).

Local Abbreviation static := (SmartBuffer.static w Size StaticThreshold).
Local Abbreviation actual_len := (SmartBuffer.actual_len w Size).
Local Abbreviation wf := (SmartBuffer.wf w Size StaticThreshold).

(** Overwriting a region by as many bytes keeps the invariant. *)
Lemma wf_set_region_ptr p bs bs' m :
  wf m -> region p m = Some bs -> length bs' = length bs ->
  wf (set_region p bs' m).
Proof.
  intros Hwf Hr Hlen. destruct p as [|this|l]; simpl in Hr; [discriminate| |].
  - destruct (objects m !! this) as [[e|q]|] eqn:Ho; try discriminate.
    injection Hr as ->.
    assert (Hc : contents this m = Some bs) by (apply contents_static; exact Ho).
    replace (ArrayData this) with (place this m)
      by (unfold place; rewrite Ho; reflexivity).
    eapply wf_set_region; [exact Hwf | exact Hc |].
    rewrite Hlen. eapply contents_length; eassumption.
  - destruct (wf_no_leak _ _ _ _ Hwf l ltac:(eauto)) as (this & Ho).
    assert (Hc : contents this m = Some bs)
      by (unfold contents; rewrite Ho; exact Hr).
    replace (HeapData l) with (place this m)
      by (unfold place; rewrite Ho; reflexivity).
    eapply wf_set_region; [exact Hwf | exact Hc |].
    rewrite Hlen. eapply contents_length; eassumption.
Qed.

Lemma preserves_wf_get_buffer this : preserves wf (get_buffer this).
Proof.
  intros m s m' Hwf. unfold get_buffer. destruct (objects m !! this);
    [intros [= _ <-]; exact Hwf | discriminate].
Qed.

Lemma preserves_wf_load p i : preserves wf (load p i).
Proof.
  intros m b m' Hwf. unfold load. destruct (region p m) as [bs|];
    [|discriminate].
  destruct (bs !! i); [intros [= _ <-]; exact Hwf | discriminate].
Qed.

Lemma preserves_wf_store p i v : preserves wf (store p i v).
Proof.
  intros m u m' Hwf. unfold store. destruct (region p m) as [bs|] eqn:Hr;
    [|discriminate].
  destruct (decide (i < length bs)%nat); [|discriminate].
  intros [= _ <-]. eapply wf_set_region_ptr; [exact Hwf | exact Hr |].
  apply length_insert.
Qed.

Lemma preserves_wf_begin_lifetime this junk :
  preserves wf (begin_lifetime static actual_len this junk).
Proof.
  intros m u m' Hwf. unfold begin_lifetime.
  destruct (objects m !! this) eqn:Ho; [discriminate|].
  intros [= _ <-]. destruct static eqn:Hst.
  - apply wf_put_static; [assumption..|].
    rewrite length_map, length_seq. reflexivity.
  - apply wf_null_handle; [assumption..|].
    intros k Hk. unfold owns in Hk. congruence.
Qed.

(** [buffer_ = other.buffer_] on arrays. *)
Lemma preserves_wf_array_assign this other :
  preserves wf (array_assign this other).
Proof.
  intros m u m' Hwf. unfold array_assign, bind, get_buffer, set_buffer.
  destruct (objects m !! other) as [[e|q]|] eqn:Ho; try discriminate.
  - destruct (objects m !! this) as [[e'|q]|] eqn:Ht; try discriminate.
    rewrite Ht. intros [= _ <-].
    destruct (wf_static _ _ _ _ Hwf other e Ho) as [Hst Hlen].
    apply wf_put_static; assumption.
  - destruct (objects m !! this) as [[e'|q']|]; discriminate.
Qed.

(** [buffer_ = std::move(other.buffer_)] on [unique_ptr]s of two handles. *)
Lemma preserves_wf_unique_ptr_move_assign this other :
  this <> other -> preserves wf (unique_ptr_move_assign this other).
Proof.
  intros Hne m u m' Hwf.
  unfold unique_ptr_move_assign, unique_ptr_release, unique_ptr_reset,
    bind, get_buffer, set_buffer, ret, delete_array.
  destruct (objects m !! other) as [[e|p]|] eqn:Ho; try discriminate.
  rewrite Ho. simpl. rewrite lookup_insert_ne by congruence.
  destruct (objects m !! this) as [[e|old]|] eqn:Ht; try discriminate.
  simpl. rewrite lookup_insert_ne, Ht by congruence.
  destruct old as [l|]; simpl.
  - destruct (heap m !! l) as [bs|]; [|discriminate].
    intros [= _ <-].
    exact (wf_moved w Size StaticThreshold this other p (Some l) m _ _ _
             Hwf Hne Ht Ho).
  - intros [= _ <-].
    exact (wf_moved w Size StaticThreshold this other p None m _ _ _
             Hwf Hne Ht Ho).
Qed.

(** [buffer_ = std::make_unique<std::uint8_t[]>(ACTUAL_SIZE)] *)
Lemma preserves_wf_acquire this :
  preserves wf (let* l := make_unique actual_len in
                unique_ptr_reset this (Some l)).
Proof.
  intros m u m' Hwf.
  pose proof (fresh_heap m) as Hl. revert Hl.
  unfold bind, make_unique, unique_ptr_reset, bind, get_buffer, set_buffer,
    ret, delete_array.
  generalize (fresh (dom (heap m))). intros l Hl.
  destruct (decide (actual_len <= capacity m)%nat); [|discriminate].
  simpl. destruct (objects m !! this) as [[e|old]|] eqn:Ht; try discriminate.
  pose proof (wf_dynamic _ _ _ _ Hwf this _ Ht) as Hst.
  destruct old as [k|]; simpl; rewrite Ht; simpl.
  - destruct (wf_region _ _ _ _ Hwf this k Ht) as (bs & Hk & _).
    assert (Hkl : l <> k) by congruence.
    rewrite lookup_insert_ne, Hk by assumption.
    intros [= _ <-].
    pose proof (wf_drop w Size StaticThreshold this k m
                  (capacity m) (allocations m) (releases m) Hwf Ht) as Hwf1.
    pose proof (wf_adopt w Size StaticThreshold this l
                  (replicate actual_len x00) _
                  (capacity m - actual_len + length bs)%nat
                  (S (allocations m)) (S (releases m)) Hwf1 Hst) as Hwf2.
    simpl in Hwf2. rewrite insert_insert_eq in Hwf2.
    rewrite delete_insert_ne by congruence. apply Hwf2.
    + intros j Hj. unfold owns in Hj. simpl in Hj.
      rewrite lookup_insert_eq in Hj. discriminate.
    + rewrite lookup_delete_ne by congruence. exact Hl.
    + apply length_replicate.
  - intros [= _ <-]. apply wf_adopt; try assumption.
    + intros j Hj. unfold owns in Hj. congruence.
    + apply length_replicate.
Qed.

Lemma preserves_bind_assoc {A B C} P (c : M A) (k : A -> M B)
    (k' : B -> M C) :
  preserves P (bind (bind c k) k') ->
  preserves P (bind c (fun a => bind (k a) k')).
Proof.
  intros H m x m' HP Hrun. apply (H m x m' HP).
  unfold bind in *. destruct (c m); auto.
Qed.

Ltac keeps_step :=
  first
    [ apply preserves_ret
    | apply preserves_undefined
    | apply preserves_wf_get_buffer
    | apply preserves_wf_load
    | apply preserves_wf_store
    | apply preserves_wf_begin_lifetime
    | apply preserves_wf_array_assign
    | apply preserves_wf_acquire
    | assumption
    | apply preserves_bind; [|intros ?]
    | match goal with
      | |- preserves _ (match ?x with _ => _ end) => destruct x
      | |- preserves _ (if ?b then _ else _) => destruct b
      end ].

Lemma preserves_wf_fill_n_from p v n : forall i,
  preserves wf (fill_n_from p i n v).
Proof.
  induction n as [|n IH]; intros i; simpl; [apply preserves_ret|].
  apply preserves_bind; [apply preserves_wf_store | intros _; apply IH].
Qed.

Lemma preserves_wf_copy_n_from src dst n : forall i,
  preserves wf (copy_n_from src i n dst).
Proof.
  induction n as [|n IH]; intros i; simpl; [apply preserves_ret|].
  apply preserves_bind; [apply preserves_wf_load | intros b].
  apply preserves_bind; [apply preserves_wf_store | intros _; apply IH].
Qed.

Lemma preserves_wf_unique_ptr_get this : preserves wf (unique_ptr_get this).
Proof. unfold unique_ptr_get. repeat keeps_step. Qed.

Lemma preserves_wf_data this :
  preserves wf (data w Size StaticThreshold this).
Proof.
  unfold SmartBuffer.data, array_data.
  pose proof (preserves_wf_unique_ptr_get this). repeat keeps_step.
Qed.

(** Both pointers are read and the bytes copied. *)
Lemma preserves_wf_copy_region this other :
  preserves wf (let* src := unique_ptr_get other in
                let* dst := unique_ptr_get this in
                copy_n src actual_len dst).
Proof.
  apply preserves_bind; [apply preserves_wf_unique_ptr_get | intros src].
  apply preserves_bind; [apply preserves_wf_unique_ptr_get | intros dst].
  apply preserves_wf_copy_n_from.
Qed.

Lemma preserves_wf_mutate this mu :
  preserves wf (mutate w Size StaticThreshold this mu).
Proof.
  destruct mu; simpl;
    unfold subscript_assign, clear, clear_all, fill, fill_all, fill_n;
    (apply preserves_bind; [apply preserves_wf_data | intros p]);
    first [apply preserves_wf_store | apply preserves_wf_fill_n_from].
Qed.

Lemma preserves_wf_ctor_default this junk :
  preserves wf (ctor_default w Size StaticThreshold this junk).
Proof.
  unfold ctor_default.
  apply preserves_bind; [apply preserves_wf_begin_lifetime | intros _].
  destruct static.
  - unfold array_fill, array_data, fill_n.
    pose proof preserves_wf_fill_n_from. repeat keeps_step. auto.
  - apply (preserves_bind_assoc _ _
             (fun l => unique_ptr_reset this (Some l))).
    apply preserves_bind; [apply preserves_wf_acquire | intros _].
    apply preserves_bind; [apply preserves_wf_unique_ptr_get | intros p].
    apply preserves_wf_fill_n_from.
Qed.

Lemma preserves_wf_ctor_copy this other junk :
  preserves wf (ctor_copy w Size StaticThreshold this other junk).
Proof.
  unfold ctor_copy.
  apply preserves_bind; [apply preserves_wf_begin_lifetime | intros _].
  destruct static; [apply preserves_wf_array_assign|].
  apply (preserves_bind_assoc _ _
           (fun l => unique_ptr_reset this (Some l))).
  apply preserves_bind; [apply preserves_wf_acquire | intros _].
  apply preserves_wf_copy_region.
Qed.

Lemma preserves_wf_ctor_move this other junk :
  this <> other ->
  preserves wf (ctor_move w Size StaticThreshold this other junk).
Proof.
  intros Hne. unfold ctor_move, array_move_assign.
  apply preserves_bind; [apply preserves_wf_begin_lifetime | intros _].
  destruct static;
    [apply preserves_wf_array_assign
    |apply preserves_wf_unique_ptr_move_assign; exact Hne].
Qed.

Lemma preserves_wf_copy_assign this other :
  preserves wf (copy_assign w Size StaticThreshold this other).
Proof.
  unfold copy_assign.
  destruct (decide (this <> other)); [|apply preserves_ret].
  destruct static; [apply preserves_wf_array_assign|].
  apply preserves_bind; [|intros b].
  { unfold unique_ptr_bool. repeat keeps_step. }
  apply preserves_bind; [|intros _; apply preserves_wf_copy_region].
  destruct (negb b); [apply preserves_wf_acquire | apply preserves_ret].
Qed.

Lemma preserves_wf_move_assign this other :
  preserves wf (move_assign w Size StaticThreshold this other).
Proof.
  unfold move_assign, array_move_assign.
  destruct (decide (this <> other)) as [Hne|]; [|apply preserves_ret].
  destruct static;
    [apply preserves_wf_array_assign
    |apply preserves_wf_unique_ptr_move_assign; exact Hne].
Qed.

Lemma preserves_wf_dtor this :
  preserves wf (dtor w Size StaticThreshold this).
Proof.
  intros m u m' Hwf. unfold dtor.
  destruct static eqn:Hst.
  - unfold bind, ret, end_lifetime.
    destruct (objects m !! this) as [s|] eqn:Ho; [|discriminate].
    intros [= _ <-]. apply wf_remove; [exact Hwf|].
    intros k Hk. pose proof (wf_dynamic _ _ _ _ Hwf this _ Hk). congruence.
  - unfold bind, unique_ptr_destroy, bind, get_buffer, ret, delete_array,
      end_lifetime.
    destruct (objects m !! this) as [[e|[l|]]|] eqn:Ho; try discriminate.
    + destruct (heap m !! l) as [bs|] eqn:Hl; [|discriminate].
      simpl. rewrite Ho. intros [= _ <-].
      pose proof (wf_drop w Size StaticThreshold this l m
                    (capacity m + length bs) (allocations m)
                    (S (releases m)) Hwf Ho) as Hwf1.
      pose proof (wf_remove w Size StaticThreshold this _ Hwf1) as Hwf2.
      unfold with_objects in Hwf2. simpl in Hwf2.
      rewrite delete_insert_eq in Hwf2. apply Hwf2.
      intros k Hk. unfold owns in Hk. simpl in Hk.
      rewrite lookup_insert_eq in Hk. discriminate.
    + rewrite Ho. intros [= _ <-]. apply wf_remove; [exact Hwf|].
      intros k Hk. unfold owns in Hk. congruence.
Qed.

End invariant_facts.

Lemma preserves_wf_perform (w Size StaticThreshold : Z)
    (op : Program.operation) :
  Program.distinct_operands op ->
  preserves (SmartBuffer.wf w Size StaticThreshold)
            (Program.perform w Size StaticThreshold op).
Proof.
  intros Hd.
  destruct op as [this junk|this other junk|this other junk|this other
                 |this other|this|this mu]; simpl in *.
  - apply preserves_wf_ctor_default.
  - apply preserves_wf_ctor_copy.
  - apply preserves_wf_ctor_move. exact Hd.
  - apply preserves_wf_copy_assign.
  - apply preserves_wf_move_assign.
  - apply preserves_wf_dtor.
  - apply preserves_wf_mutate.
Qed.

(** X19: every call of the class keeps the representation invariant and
    the count of arrays: when it returns, in any strategy, each object still
    has the member type of the instantiation with [ACTUAL_SIZE] bytes, each
    live array has exactly one owner, and the calls of [new[]] are the
    calls of [delete[]] plus the live arrays. *)
Theorem operations_keep_invariant (w Size StaticThreshold : Z)
    (op : Program.operation) (m m' : memory) :
  SmartBuffer.wf w Size StaticThreshold m ->
  balanced m ->
  Program.distinct_operands op ->
  Program.perform w Size StaticThreshold op m = Ok tt m' ->
  SmartBuffer.wf w Size StaticThreshold m' /\ balanced m'.
Proof.
  intros Hwf Hb Hd Hrun. split.
  - exact (preserves_wf_perform w Size StaticThreshold op Hd m tt m' Hwf Hrun).
  - exact (preserves_balanced_perform w Size StaticThreshold op m tt m' Hb Hrun).
Qed.

Lemma operations_keep_invariant_witness :
  let m' := Memory (delete 1%positive (objects heap_sample))
                   (delete 5%positive (heap heap_sample)) 104 1 1 in
  SmartBuffer.wf 64 33 32 heap_sample /\
  balanced heap_sample /\
  Program.distinct_operands (Program.Destroy 1%positive) /\
  Program.perform 64 33 32 (Program.Destroy 1%positive) heap_sample
    = Ok tt m' /\
  SmartBuffer.wf 64 33 32 m' /\ balanced m'.
Proof.
  assert (Hb : balanced heap_sample) by (vm_compute; reflexivity).
  assert (Hrun : Program.perform 64 33 32 (Program.Destroy 1%positive)
                   heap_sample
                 = Ok tt (Memory (delete 1%positive (objects heap_sample))
                            (delete 5%positive (heap heap_sample)) 104 1 1))
    by (vm_compute; reflexivity).
  split; [exact wf_heap_sample|]. split; [exact Hb|]. split; [exact I|].
  split; [exact Hrun|].
  exact (operations_keep_invariant 64 33 32 (Program.Destroy 1%positive)
           heap_sample _ wf_heap_sample Hb I Hrun).
Defined.

(** A sequence of calls keeps what each call keeps. *)
Lemma perform_all_invariant (w Size StaticThreshold : Z)
    (ops : list Program.operation) : forall m m',
  SmartBuffer.wf w Size StaticThreshold m ->
  balanced m ->
  Forall Program.distinct_operands ops ->
  Program.perform_all w Size StaticThreshold ops m = Ok tt m' ->
  SmartBuffer.wf w Size StaticThreshold m' /\ balanced m'.
Proof.
  induction ops as [|op ops IH]; intros m m' Hwf Hb Hall; simpl.
  - intros [= <-]. auto.
  - inversion Hall as [|? ? Hd Hrest]; subst. unfold bind.
    destruct (Program.perform w Size StaticThreshold op m) as [[] m1| |] eqn:E;
      try discriminate.
    intros Hrun.
    pose proof (preserves_wf_perform w Size StaticThreshold op Hd m tt m1
                  Hwf E) as Hwf1.
    pose proof (preserves_balanced_perform w Size StaticThreshold op m tt m1
                  Hb E) as Hb1.
    exact (IH m1 m' Hwf1 Hb1 Hrest Hrun).
Qed.

Lemma balanced_empty cap : balanced (empty_memory cap).
Proof. unfold balanced. simpl. rewrite map_size_empty. reflexivity. Qed.

(** X20: a program that starts in an empty memory and runs any calls of
    the class on any handles reaches, if it returns, a well-formed memory
    with the arrays counted right; once it has destroyed every object, no
    array is left in the heap and every [new[]] was matched by exactly one
    [delete[]]: nothing leaks and nothing is released twice. *)
Theorem program_leaks_nothing (w Size StaticThreshold : Z)
    (ops : list Program.operation) (cap : nat) (m' : memory) :
  Forall Program.distinct_operands ops ->
  Program.perform_all w Size StaticThreshold ops (empty_memory cap)
    = Ok tt m' ->
  SmartBuffer.wf w Size StaticThreshold m' /\
  balanced m' /\
  (objects m' = ∅ -> heap m' = ∅ /\ allocations m' = releases m').
Proof.
  intros Hall Hrun.
  destruct (perform_all_invariant w Size StaticThreshold ops
              (empty_memory cap) m' (wf_empty _ _ _ cap) (balanced_empty cap)
              Hall Hrun) as [Hwf Hb].
  split; [exact Hwf|]. split; [exact Hb|].
  intros Hobj.
  assert (Hheap : heap m' = ∅).
  { apply map_empty. intros l.
    destruct (heap m' !! l) as [bs|] eqn:Hl; [|reflexivity].
    destruct (SmartBuffer.wf_no_leak _ _ _ _ Hwf l ltac:(eauto)) as (a & Ha).
    unfold SmartBuffer.owns in Ha. rewrite Hobj, lookup_empty in Ha.
    discriminate. }
  split; [exact Hheap|].
  unfold balanced in Hb. rewrite Hheap, map_size_empty in Hb. lia.
Qed.

Lemma program_leaks_nothing_witness :
  let m' := Memory ∅ ∅ 100 2 2 in
  Forall Program.distinct_operands sample_program /\
  Program.perform_all 64 33 32 sample_program (empty_memory 100) = Ok tt m' /\
  SmartBuffer.wf 64 33 32 m' /\
  balanced m' /\
  (objects m' = ∅ -> heap m' = ∅ /\ allocations m' = releases m').
Proof.
  assert (Hall : Forall Program.distinct_operands sample_program).
  { unfold sample_program. repeat constructor; discriminate. }
  assert (Hrun : Program.perform_all 64 33 32 sample_program (empty_memory 100)
                 = Ok tt (Memory ∅ ∅ 100 2 2)) by (vm_compute; reflexivity).
  split; [exact Hall|]. split; [exact Hrun|].
  exact (program_leaks_nothing 64 33 32 sample_program 100 _ Hall Hrun).
Defined.

(** X21: a write through one handle is local to it: an in-bounds byte
    write, [fill], [clear], [fill_all] or [clear_all] on a non-moved-from
    handle returns, changes the bytes of no other handle, constructs and
    destroys no object, calls neither [new[]] nor [delete[]], and leaves
    the pointer [data()] returns for the handle as it was.  [Size + 7] must
    not wrap. *)
Theorem writes_are_local (w Size StaticThreshold : Z) (this : address)
    (mu : SmartBuffer.mutation) (bs : list byte) (m : memory) :
  16 <= w -> 0 <= Size <= SizeT.SIZE_MAX w - 7 ->
  SmartBuffer.wf w Size StaticThreshold m ->
  SmartBuffer.contents this m = Some bs ->
  SmartBuffer.in_bounds w Size mu ->
  exists m',
    SmartBuffer.mutate w Size StaticThreshold this mu m = Ok tt m' /\
    SmartBuffer.contents this m' = Some (SmartBuffer.effect w Size mu bs) /\
    (forall other, other <> this ->
       SmartBuffer.contents other m' = SmartBuffer.contents other m) /\
    dom (objects m') = dom (objects m) /\
    dom (heap m') = dom (heap m) /\
    capacity m' = capacity m /\
    allocations m' = allocations m /\ releases m' = releases m /\
    SmartBuffer.place this m' = SmartBuffer.place this m.
Proof.
  intros Hw Hsize Hwf Hc Hin.
  pose proof (size_len_le_actual_len w Size Hw Hsize) as Hle.
  exists (set_region (SmartBuffer.place this m)
            (SmartBuffer.effect w Size mu bs) m).
  split; [apply mutate_ok; assumption|].
  split; [eapply contents_set_region_same; eassumption|].
  split; [intros other Hne; eapply contents_set_region_other; eassumption|].
  split; [|split; [|split; [|split; [|split]]]].
  - destruct (contents_Some_inv _ _ _ Hc) as [Hs|(l & Ho & Hh)];
      unfold SmartBuffer.place; [rewrite Hs | rewrite Ho]; simpl;
      [|reflexivity].
    apply dom_insert_lookup_L. eauto.
  - destruct (contents_Some_inv _ _ _ Hc) as [Hs|(l & Ho & Hh)];
      unfold SmartBuffer.place; [rewrite Hs | rewrite Ho]; simpl;
      [reflexivity|].
    apply dom_insert_lookup_L. eauto.
  - destruct (SmartBuffer.place this m); reflexivity.
  - destruct (SmartBuffer.place this m); reflexivity.
  - destruct (SmartBuffer.place this m); reflexivity.
  - eapply place_set_region; eassumption.
Qed.

Lemma writes_are_local_witness :
  16 <= 64 /\ 0 <= 33 <= SizeT.SIZE_MAX 64 - 7 /\
  SmartBuffer.wf 64 33 32 heap_sample /\
  SmartBuffer.contents 1%positive heap_sample = Some (replicate 40 x07) /\
  SmartBuffer.in_bounds 64 33 (SmartBuffer.Fill xff) /\
  exists m',
    SmartBuffer.mutate 64 33 32 1%positive (SmartBuffer.Fill xff) heap_sample
      = Ok tt m' /\
    (forall other, other <> 1%positive ->
       SmartBuffer.contents other m' = SmartBuffer.contents other heap_sample).
Proof.
  assert (Hs : 0 <= 33 <= SizeT.SIZE_MAX 64 - 7)
    by (vm_compute; split; discriminate).
  split; [lia|]. split; [exact Hs|]. split; [exact wf_heap_sample|].
  split; [reflexivity|]. split; [exact I|].
  destruct (writes_are_local 64 33 32 1%positive (SmartBuffer.Fill xff)
              (replicate 40 x07) heap_sample ltac:(lia) Hs wf_heap_sample
              eq_refl I) as (m' & Hrun & _ & Hother & _).
  exists m'. auto.
Defined.
